(** * dump2png: a shallow embedding of [dump2png.c]

    The development follows the layout of the C file: the palette
    enumeration and its helpers ([atopal], [pal2chrs]), the colour mapping
    functions ([map_hues] ... [map_x86]), the row loop of [doimage], and
    the option handling and height computation of [main].

    Conventions.
    - An [unsigned char] is a [Z] in [0, 256); every store into an
      [unsigned char] object goes through [to_uchar], which writes the
      conversion (reduction modulo 256) out.
    - The input file and the input buffer [inbuf] hold [Byte.byte]s.
    - The [int] dimensions (width, height, skip, zoom) are [Z]s.  A
      product of [int]s is reduced to 32 bits ([int_mul]): signed overflow
      is undefined in C, and the compiled program wraps.
    - The data model is LP64: [int] has 32 bits, [unsigned long],
      [unsigned long long], [size_t] and [off_t] have 64.
    - Objects the C code reads before writing them ([last], [rgb], the
      fresh [inbuf]) start with a value supplied by the caller of the
      model.
    - The C library and libpng are collaborators: [getopt] is given by
      the options it returns, the file system and the allocator by the
      answers they give, [float] arithmetic by the IEEE 754 specification
      of the Standard Library. *)

From Stdlib Require Import ZArith List Bool Lia String Ascii Strings.Byte.
From Stdlib Require Import QArith Qround.
From Stdlib Require Import Floats.SpecFloat.
Import ListNotations.

Local Open Scope Z_scope.

(** ** Machine integers *)

Definition to_uchar (v : Z) : Z := v mod 256.
Definition to_ushort (v : Z) : Z := v mod 65536.
Definition to_ulong (v : Z) : Z := v mod 2 ^ 64.
Definition INT_MAX : Z := 2 ^ 31 - 1.
Definition INT_MIN : Z := - 2 ^ 31.

(** Conversion of an [unsigned char] value to a (signed) [char]. *)
Definition to_char (v : Z) : Z :=
  let u := to_uchar v in if u <? 128 then u else u - 256.

(** Two's complement reduction to [int]. *)
Definition to_int (v : Z) : Z := (v + 2 ^ 31) mod 2 ^ 32 - 2 ^ 31.

(** [a * b] on two [int]s. *)
Definition int_mul (a b : Z) : Z := to_int (a * b).

Definition LONG_MAX : Z := 2 ^ 63 - 1.
Definition LONG_MIN : Z := - 2 ^ 63.

Definition byte_val (b : byte) : Z := Z.of_N (Byte.to_N b).

Definition byte_of_Z (v : Z) : byte :=
  match Byte.of_N (Z.to_N (to_uchar v)) with
  | Some b => b
  | None => x00
  end.

(** ** The palette enumeration *)

Inductive palette_t : Type :=
  | GRAY | GRAY16B | GRAY32B | GRAY16L | GRAY32L
  | HUES | HUES6 | FHUES
  | COLOR | COLOR16 | COLOR32
  | RGB | DVI | X86.

(** [atopal]: [None] stands for the branch that prints
    "invalid palette. See USAGE (--help)." and calls [exit(3)]. *)
Definition atopal (opt : string) : option palette_t :=
  if String.eqb opt "gray" then Some GRAY
  else if String.eqb opt "gray16b" then Some GRAY16B
  else if String.eqb opt "gray32b" then Some GRAY32B
  else if String.eqb opt "gray16l" then Some GRAY16L
  else if String.eqb opt "gray32l" then Some GRAY32L
  else if String.eqb opt "hues" then Some HUES
  else if String.eqb opt "hues6" then Some HUES6
  else if String.eqb opt "fhues" then Some FHUES
  else if String.eqb opt "color" then Some COLOR
  else if String.eqb opt "color16" then Some COLOR16
  else if String.eqb opt "color32" then Some COLOR32
  else if String.eqb opt "rgb" then Some RGB
  else if String.eqb opt "dvi" then Some DVI
  else if String.eqb opt "x86" then Some X86
  else None.

Definition pal2chrs (pal : palette_t) : Z :=
  match pal with
  | RGB => 3
  | GRAY16B | GRAY16L | COLOR16 => 2
  | GRAY32B | GRAY32L | COLOR32 => 4
  | _ => 1
  end.

(** ** Colour mapping *)

(** The three channels of [rgb[3]] / of one pixel of the row buffer. *)
Definition rgb_t : Type := (Z * Z * Z)%type.

Definition black : rgb_t := (0, 0, 0).

(** Three stores into [unsigned char] cells. *)
Definition store3 (r g b : Z) : rgb_t := (to_uchar r, to_uchar g, to_uchar b).

Definition chan_R (p : rgb_t) : Z := fst (fst p).
Definition chan_G (p : rgb_t) : Z := snd (fst p).
Definition chan_B (p : rgb_t) : Z := snd p.

Definition map_hues (val : Z) : rgb_t :=
  let v := to_uchar val * 3 in
  if v <? 256 then store3 v 0 0
  else if v <? 512 then store3 0 (Z.rem v 256) 0
  else store3 0 0 (Z.rem v 256).

Definition map_fhues (val : Z) : rgb_t :=
  let v := to_uchar val * 6 in
  if v <? 256 then store3 v 0 0
  else if v <? 256 * 2 then store3 255 (Z.rem v 256) (Z.rem v 256)
  else if v <? 256 * 3 then store3 0 (Z.rem v 256) 0
  else if v <? 256 * 4 then store3 (Z.rem v 256) 255 (Z.rem v 256)
  else if v <? 256 * 5 then store3 0 0 (Z.rem v 256)
  else store3 (Z.rem v 256) (Z.rem v 256) 255.

Definition map_hues6 (val : Z) : rgb_t :=
  let v := to_uchar val * 6 in
  if v <? 256 then store3 v 0 0
  else if v <? 256 * 2 then store3 0 (Z.rem v 256) 0
  else if v <? 256 * 3 then store3 0 0 (Z.rem v 256)
  else if v <? 256 * 4 then store3 0 (Z.rem v 256) (Z.rem v 256)
  else if v <? 256 * 5 then store3 (Z.rem v 256) 0 (Z.rem v 256)
  else store3 (Z.rem v 256) (Z.rem v 256) 0.

Definition map_color16 (arg : Z) : rgb_t :=
  let val := to_ushort arg in
  store3 (Z.shiftr (Z.land val 0xfc00) 8)
         (Z.shiftr (Z.land val 0x03c0) 2)
         (Z.shiftl (Z.land val 0x001f) 3).

Definition map_color32 (arg : Z) : rgb_t :=
  let val := to_ulong arg in
  store3 (Z.shiftr (Z.land val 0xff000000) 24)
         (Z.shiftr (Z.land val 0x001fe000) 13)
         (Z.shiftr (Z.land val 0x000001fe) 1).

Definition c2v_binary (c : Z) : Z :=
  let c := to_uchar c in
  if c =? 0x01 then 0xff
  else if c =? 0x02 then 0xcf
  else if c =? 0x03 then 0xaf
  else 0.

(** The parameter of [c2v_english] is a plain [char]; the letters are
    their ASCII codes. *)
Definition c2v_english (c : Z) : Z :=
  let c := to_char c in
  if c =? 101 (* 'e' *) then 0xff
  else if c =? 116 (* 't' *) then 0xcf
  else if c =? 97 (* 'a' *) then 0xaf
  else 0.

Definition c2v_x86 (c : Z) : Z :=
  let c := to_uchar c in
  if c =? 0x8b then 0xff       (* movl *)
  else if c =? 0xe8 then 0xcf  (* call *)
  else if c =? 0x85 then 0xaf  (* testl *)
  else 0.

Definition map_x86 (c : Z) : rgb_t :=
  let c := to_uchar c in
  let r := to_uchar (c2v_x86 c) in
  let g := to_uchar (c2v_english c) in
  let b := to_uchar (c2v_binary c) in
  (* default to grayscale *)
  if r + g + b =? 0 then store3 c c c else (r, g, b).

Definition BYTE_MASK : Z := 0xfe.

(** ** The row loop of [doimage] *)

(** [inbuf[i]].  An index outside the buffer, undefined in C, reads 0;
    with width, skip and zoom at least 1 and a product
    [width * chrs * skip * zoom] that fits in an [int], the loops of
    [doimage] stay below [width * chrs * zoom], inside the buffer. *)
Definition rd (inbuf : list byte) (i : Z) : Z :=
  byte_val (nth (Z.to_nat i) inbuf x00).

(** The locals of [doimage] that survive from one pixel to the next:
    [unsigned char last, rgb[3]]. *)
Record locals : Type := { v_last : Z; v_rgb : rgb_t }.

(** The body of [switch (pal)] for the sample at offset [xx]: the new
    content of [rgb] and the value of [xx] when the switch is left (the
    [xx++] of the enclosing [for] is not included).  The operands of [+]
    in the COLOR16 and COLOR32 cases are taken left to right.  The
    [default:] branch cannot be reached: the enumeration is closed. *)
Definition decode (pal : palette_t) (inbuf : list byte) (xx last : Z)
  : rgb_t * Z :=
  match pal with
  | GRAY => (store3 (rd inbuf xx) (rd inbuf xx) (rd inbuf xx), xx)
  | GRAY16B => (store3 (rd inbuf xx) (rd inbuf xx) (rd inbuf xx), xx + 1)
  | GRAY32B => (store3 (rd inbuf xx) (rd inbuf xx) (rd inbuf xx), xx + 3)
  | GRAY16L =>
      (store3 (rd inbuf (xx + 1)) (rd inbuf (xx + 1)) (rd inbuf (xx + 1)),
       xx + 1)
  | GRAY32L =>
      (store3 (rd inbuf (xx + 3)) (rd inbuf (xx + 3)) (rd inbuf (xx + 3)),
       xx + 3)
  | HUES => (map_hues (rd inbuf xx), xx)
  | HUES6 => (map_hues6 (rd inbuf xx), xx)
  | FHUES => (map_fhues (rd inbuf xx), xx)
  | COLOR =>
      (store3 (Z.land (rd inbuf xx) 0xe0)
              (Z.shiftl (Z.land (rd inbuf xx) 0x1c) 3)
              (Z.shiftl (Z.land (rd inbuf xx) 0x03) 6), xx)
  | COLOR16 =>
      (map_color16 (rd inbuf xx + Z.shiftl (rd inbuf (xx + 1)) 8), xx + 1)
  | COLOR32 =>
      (map_color32
         (to_int (rd inbuf xx + Z.shiftl (rd inbuf (xx + 1)) 8
                  + Z.shiftl (rd inbuf (xx + 2)) 16
                  + Z.shiftl (rd inbuf (xx + 3)) 24)), xx + 3)
  | RGB => (store3 (rd inbuf xx) (rd inbuf (xx + 1)) (rd inbuf (xx + 2)),
            xx + 2)
  | X86 => (map_x86 (rd inbuf xx), xx)
  | DVI =>
      (store3 (Z.abs (rd inbuf xx - last)) (rd inbuf xx)
              (Z.quot (rd inbuf xx + last) 2), xx)
  end.

(** The colour of the sample at offset [xx]. *)
Definition sample (pal : palette_t) (inbuf : list byte) (xx last : Z)
  : rgb_t := fst (decode pal inbuf xx last).

(** [unsigned long sum[3]]. *)
Definition sum_t : Type := (Z * Z * Z)%type.

Definition sum_add (s : sum_t) (c : rgb_t) : sum_t :=
  let '(s0, s1, s2) := s in
  let '(r, g, b) := c in
  (to_ulong (s0 + r), to_ulong (s1 + g), to_ulong (s2 + b)).

(** [for (z = 0; z < zoom; z++, xx++)], [n] iterations left. *)
Fixpoint zoom_loop (n : nat) (pal : palette_t) (inbuf : list byte)
    (zoom xx last : Z) (rgb : rgb_t) (sum : sum_t) : rgb_t * Z * sum_t :=
  match n with
  | O => (rgb, xx, sum)
  | S n' =>
      let '(rgb', xx') := decode pal inbuf xx last in
      let sum' := if 1 <? zoom then sum_add sum rgb' else sum in
      zoom_loop n' pal inbuf zoom (xx' + 1) last rgb' sum'
  end.

(** [if (zoom > 1) rgb[i] = sum[i] / zoom]. *)
Definition average (zoom : Z) (rgb : rgb_t) (sum : sum_t) : rgb_t :=
  if 1 <? zoom then
    let '(s0, s1, s2) := sum in
    store3 (s0 / to_ulong zoom) (s1 / to_ulong zoom) (s2 / to_ulong zoom)
  else rgb.

(** [if (mask) rgb[i] = rgb[i] & BYTE_MASK]. *)
Definition apply_mask (mask : Z) (rgb : rgb_t) : rgb_t :=
  if mask =? 0 then rgb
  else
    let '(r, g, b) := rgb in
    store3 (Z.land r BYTE_MASK) (Z.land g BYTE_MASK) (Z.land b BYTE_MASK).

(** The pixel value before masking: zoom loop, then averaging. *)
Definition unmasked (pal : palette_t) (inbuf : list byte) (zoom xx : Z)
    (st : locals) : rgb_t * Z :=
  let '(rgb1, xx1, sum) :=
    zoom_loop (Z.to_nat zoom) pal inbuf zoom xx (v_last st) (v_rgb st)
              (0, 0, 0) in
  (average zoom rgb1 sum, xx1).

(** One iteration of [for (x = 0, xx = 0; x < width; x++)]: the pixel
    stored at [pngbyte[x * 3]], the new [xx] and the new locals.  [inn] is
    the result of [read]. *)
Definition pixel (pal : palette_t) (inbuf : list byte) (inn zoom mask : Z)
    (x xx : Z) (st : locals) : rgb_t * Z * locals :=
  if inn <? xx + pal2chrs pal then (black, xx, st)
  else
    let '(rgb2, xx1) := unmasked pal inbuf zoom xx st in
    let rgb3 := apply_mask mask rgb2 in
    (rgb3, xx1, {| v_last := rd inbuf x; v_rgb := rgb3 |}).

Fixpoint row_loop (n : nat) (pal : palette_t) (inbuf : list byte)
    (inn zoom mask : Z) (x xx : Z) (st : locals) : list rgb_t * locals :=
  match n with
  | O => ([], st)
  | S n' =>
      let '(p, xx', st') := pixel pal inbuf inn zoom mask x xx st in
      let '(ps, st'') := row_loop n' pal inbuf inn zoom mask (x + 1) xx' st' in
      (p :: ps, st'')
  end.

(** One row: the [width] pixels handed to [png_write_row]. *)
Definition dorow (pal : palette_t) (width zoom mask : Z)
    (inbuf : list byte) (inn : Z) (st : locals) : list rgb_t * locals :=
  row_loop (Z.to_nat width) pal inbuf inn zoom mask 0 0 st.

(** [read(infile, inbuf, nbyte)] on a regular file with content [file]
    and offset [pos]: the bytes read overwrite the head of [inbuf], the
    rest of the buffer keeps its content.  A negative [nbyte] (a size
    above [SSIZE_MAX] once converted) is answered by -1. *)
Definition read (file : list byte) (pos : nat) (inbuf : list byte)
    (nbyte : Z) : Z * list byte * nat :=
  if nbyte <? 0 then (-1, inbuf, pos)
  else
    let chunk := firstn (Z.to_nat nbyte) (skipn pos file) in
    (Z.of_nat (List.length chunk),
     (chunk ++ skipn (List.length chunk) inbuf)%list,
     (pos + List.length chunk)%nat).

(** ** Observable events of a run *)

Inductive event : Type :=
  | EUsage (full : bool)             (* the text printed by [usage] *)
  | EInvalidPalette                  (* "invalid palette. See USAGE" *)
  | EStat (name : string)            (* [stat] on the input file *)
  | EPerror (msg : string)           (* [perror] / error on [stderr] *)
  | ETruncating (shown total : Z)    (* "Truncating height: showing .." *)
  | EOutputImage (height width : Z)  (* "Output image: height, width" *)
  | EOpen (name : string)            (* [open] of the input file *)
  | ELseek (off : Z)
  | EFopen (name : string)           (* [fopen] of the output file *)
  | EWriting (name : string)         (* "Writing ..." *)
  | ERead (nbyte inn : Z)            (* [read] of the input: request, result *)
  | ERow (row : list rgb_t)          (* [png_write_row] is called *)
  | EEnd                             (* [png_write_end] is called *)
  | ESignal (sig : Z).               (* the process is killed by a signal *)

(** [for (y = 0; y < height; y++)], [n] rows left.  The size passed to
    [read] is the [int] product [width * chrs * skip * zoom]. *)
Fixpoint rows_loop (n : nat) (pal : palette_t) (width skip zoom mask : Z)
    (file : list byte) (pos : nat) (inbuf : list byte) (st : locals)
  : list event :=
  match n with
  | O => []
  | S n' =>
      let nbyte := int_mul (int_mul (int_mul width (pal2chrs pal)) skip) zoom in
      let '(inn, inbuf', pos') := read file pos inbuf nbyte in
      let '(row, st') := dorow pal width zoom mask inbuf' inn st in
      ERead nbyte inn :: ERow row
        :: rows_loop n' pal width skip zoom mask file pos' inbuf' st'
  end.

(** What [doimage] relies on but does not define: the allocator, libpng,
    and the content of the objects it reads before writing them. *)
Record runtime : Type := {
  malloc_ok : Z -> bool;           (* [malloc(n)] returns non-NULL *)
  png_create_ok : bool;            (* both libpng structures are created *)
  png_accepts : Z -> Z -> bool;    (* libpng takes the header: width, height *)
  png_row_ok : nat -> bool;        (* [png_write_row] returns for row [y] *)
  png_end_ok : bool;               (* [png_write_end] returns *)
  fresh_inbuf : nat -> byte;       (* content of the fresh [inbuf] *)
  fresh_locals : locals            (* content of [last] and [rgb] at entry *)
}.

Definition to_size_t (v : Z) : Z := v mod 2 ^ 64.

(** [doimage]: the events and the returned [code].  [pos] is the offset
    of the descriptor [infile] at entry.  The sizes handed to [malloc] are
    [int] products converted to [size_t].  An error inside libpng comes
    back through the [setjmp] of line 424, which stays armed while the
    rows and the end of the image are written: the message is printed
    and [code] is still 1. *)
Definition doimage (rt : runtime) (file : list byte) (pos : nat)
    (width height : Z) (pal : palette_t) (skip zoom mask : Z)
  : list event * Z :=
  let chrs := pal2chrs pal in
  let pixels := int_mul (int_mul width skip) zoom in
  if negb (malloc_ok rt (to_size_t (to_size_t (to_size_t pixels * 1) * 3))
           && png_create_ok rt
           && malloc_ok rt (to_size_t (int_mul pixels chrs)))
  then ([EPerror "Out of memory"], 1)
  else if negb (png_accepts rt width height)
  then ([EPerror "Error during png creation"], 1)
  else
    let inbuf :=
      map (fresh_inbuf rt)
          (seq 0 (Z.to_nat (to_size_t (int_mul pixels chrs)))) in
    match find (fun y => negb (png_row_ok rt y)) (seq 0 (Z.to_nat height)) with
    | Some y =>
        ((rows_loop (S y) pal width skip zoom mask file pos inbuf
                    (fresh_locals rt)
          ++ [EPerror "Error during png creation"])%list, 1)
    | None =>
        if png_end_ok rt then
          ((rows_loop (Z.to_nat height) pal width skip zoom mask file pos
                      inbuf (fresh_locals rt) ++ [EEnd])%list, 0)
        else
          ((rows_loop (Z.to_nat height) pal width skip zoom mask file pos
                      inbuf (fresh_locals rt)
            ++ [EEnd; EPerror "Error during png creation"])%list, 1)
    end.

(** ** Single precision arithmetic

    [float] is IEEE 754 binary32, given by the specification of the
    Standard Library at precision 24 and maximal exponent 128. *)

Module F32.

Definition prec : Z := 24.
Definition emax : Z := 128.

(** [(float) n] for an integer [n]: rounding to nearest, ties to even. *)
Definition of_Z (n : Z) : spec_float := binary_normalize prec emax n 0 false.

Definition div : spec_float -> spec_float -> spec_float := SFdiv prec emax.

(** [ceil]: the least integer not below a finite value (the promotion
    of the [float] to [double] and the [double] result are exact);
    [None] for infinities and NaN. *)
Definition ceil (f : spec_float) : option Z :=
  match f with
  | S754_zero _ => Some 0
  | S754_finite s m e =>
      let v := if s then Zneg m else Zpos m in
      Some (if 0 <=? e then v * 2 ^ e else - ((- v) / 2 ^ (- e)))
  | _ => None
  end.

End F32.

(** Conversion of the [double] returned by [ceil] to [int]; values that
    do not fit give the "integer indefinite" value of x86. *)
Definition double_to_int (v : option Z) : Z :=
  match v with
  | Some n => if (INT_MIN <=? n) && (n <=? INT_MAX) then n else INT_MIN
  | None => INT_MIN
  end.

(** ** [main] *)

(** A process: the events so far, and either a value or the status the
    process exited with. *)
Definition proc (A : Type) : Type := (list event * (A + Z))%type.

Definition ret {A : Type} (a : A) : proc A := ([], inl a).

Definition bind {A B : Type} (m : proc A) (f : A -> proc B) : proc B :=
  match m with
  | (t, inl a) => let '(t', r) := f a in ((t ++ t')%list, r)
  | (t, inr code) => (t, inr code)
  end.

Definition emit (e : event) : proc unit := ([e], inl tt).

Definition exit {A : Type} (code : Z) : proc A := ([], inr code).

Declare Scope proc_scope.
Delimit Scope proc_scope with proc.
Notation "x <- m ;; k" := (bind m (fun x => k))
  (at level 61, m at next level, right associativity) : proc_scope.
Notation "m ;; k" := (bind m (fun _ => k))
  (at level 61, right associativity) : proc_scope.

Local Open Scope proc_scope.

(** [usage(full)] prints and always ends in [exit(1)]. *)
Definition usage {A : Type} (full : bool) : proc A :=
  emit (EUsage full) ;; exit 1.

(** [atoi] of the C library, which is [(int) strtol(s, NULL, 10)]:
    white space, an optional sign, decimal digits; the value is clamped
    to the range of [long] and then converted to [int]. *)
Definition isspace (c : ascii) : bool :=
  let n := nat_of_ascii c in
  ((n =? 32) || ((9 <=? n) && (n <=? 13)))%nat.

Definition digit_of (c : ascii) : option Z :=
  let n := Z.of_nat (nat_of_ascii c) in
  if (48 <=? n) && (n <=? 57) then Some (n - 48) else None.

Fixpoint atoi_digits (s : string) (acc : Z) : Z :=
  match s with
  | EmptyString => acc
  | String c s' =>
      match digit_of c with
      | Some d => atoi_digits s' (10 * acc + d)
      | None => acc
      end
  end.

(** The number that the string denotes. *)
Fixpoint decimal (s : string) : Z :=
  match s with
  | EmptyString => 0
  | String c s' =>
      if isspace c then decimal s'
      else if Ascii.eqb c "-" then - atoi_digits s' 0
      else if Ascii.eqb c "+" then atoi_digits s' 0
      else atoi_digits s 0
  end.

Definition strtol (s : string) : Z :=
  Z.max LONG_MIN (Z.min LONG_MAX (decimal s)).

Definition atoi (s : string) : Z := to_int (strtol s).

(** The variables of [main] that the options set. *)
Record settings : Type := {
  width : Z; height : Z; skip : Z; zoom : Z; seek : Z;
  mask : Z; hscale : Z; pal : palette_t; outfilename : string
}.

Definition defaults : settings :=
  {| width := 1024 * 1; height := 1024 * 10; skip := 1; zoom := 1;
     seek := 0; mask := 1; hscale := 1; pal := X86;
     outfilename := "dump2png.png" |}.

(** The body of the [getopt] loop for one returned option [opt] with
    argument [optarg]. *)
Definition getopt_case (s : settings) (o : ascii * string) : proc settings :=
  let '(opt, optarg) := o in
  let '{| width := w; height := h; skip := k; zoom := z; seek := sk;
          mask := m; hscale := hs; pal := p; outfilename := out |} := s in
  if Ascii.eqb opt "H" then
    ret {| width := w; height := h; skip := k; zoom := z; seek := sk;
           mask := m; hscale := 0; pal := p; outfilename := out |}
  else if Ascii.eqb opt "h" then
    ret {| width := w; height := atoi optarg; skip := k; zoom := z;
           seek := sk; mask := m; hscale := hs; pal := p;
           outfilename := out |}
  else if Ascii.eqb opt "k" then
    ret {| width := w; height := h; skip := atoi optarg; zoom := z;
           seek := sk; mask := m; hscale := hs; pal := p;
           outfilename := out |}
  else if Ascii.eqb opt "M" then
    ret {| width := w; height := h; skip := k; zoom := z; seek := sk;
           mask := 0; hscale := hs; pal := p; outfilename := out |}
  else if Ascii.eqb opt "o" then
    ret {| width := w; height := h; skip := k; zoom := z; seek := sk;
           mask := m; hscale := hs; pal := p; outfilename := optarg |}
  else if Ascii.eqb opt "p" then
    match atopal optarg with
    | Some p' =>
        ret {| width := w; height := h; skip := k; zoom := z; seek := sk;
               mask := m; hscale := hs; pal := p'; outfilename := out |}
    | None => emit EInvalidPalette ;; exit 3
    end
  else if Ascii.eqb opt "s" then
    ret {| width := w; height := h; skip := k; zoom := z;
           seek := atoi optarg; mask := m; hscale := hs; pal := p;
           outfilename := out |}
  else if Ascii.eqb opt "w" then
    ret {| width := atoi optarg; height := h; skip := k; zoom := z;
           seek := sk; mask := m; hscale := hs; pal := p;
           outfilename := out |}
  else if Ascii.eqb opt "z" then
    ret {| width := w; height := h; skip := k; zoom := atoi optarg;
           seek := sk; mask := m; hscale := hs; pal := p;
           outfilename := out |}
  else if Ascii.eqb opt "?" then usage false
  else ret s.

(** [while ((opt = getopt(...)) != EOF)]: [os] is the sequence of options
    that [getopt] returns, each with its [optarg]. *)
Fixpoint getopt_loop (os : list (ascii * string)) (s : settings)
  : proc settings :=
  match os with
  | [] => ret s
  | o :: os' => s' <- getopt_case s o ;; getopt_loop os' s'
  end.

Definition to_ull (v : Z) : Z := v mod 2 ^ 64.

(** A process killed by the signal [sig]; its status is the one a shell
    reports. *)
Definition SIGFPE : Z := 8.

Definition killed {A : Type} (sig : Z) : proc A :=
  emit (ESignal sig) ;; exit (128 + sig).

(** [ceil((float)(st_size / (zoom * skip * chrs)) / width)] as an [int],
    when the divisor is not zero: the divisor is the [int] product, the
    quotient of the integers is the truncating division of C on [off_t],
    the quotient by [width] is a division of two [float]s.  The division
    by a zero divisor is in [render_file]. *)
Definition fullheight (st_size zoom skip chrs width : Z) : Z :=
  double_to_int
    (F32.ceil (F32.div (F32.of_Z (Z.quot st_size
                                    (int_mul (int_mul zoom skip) chrs)))
                       (F32.of_Z width))).

(** Lines 188-197: the height handed to [doimage]. *)
Definition scale_height (st_size width height zoom skip chrs hscale : Z)
  : proc Z :=
  let fh := fullheight st_size zoom skip chrs width in
  if height <? fh then
    emit (ETruncating
            (to_ull (to_ull (to_ull (to_ull (to_ull width * height) * zoom)
                             * skip) * chrs))
            (to_ull st_size)) ;;
    ret height
  else ret (if hscale =? 0 then height else fh).

(** One invocation, as [main] sees it through [getopt]. *)
Record invocation : Type := {
  argc : Z;
  argv1 : string;                     (* [argv[1]], read when [argc >= 2] *)
  options : list (ascii * string);    (* what [getopt] returns, in order *)
  optind : Z;                         (* [optind] after the loop *)
  infilename : string                 (* [argv[optind]] *)
}.

(** The file system and the run time at the moment of the call. *)
Record world : Type := {
  stat_ok : bool;
  open_ok : bool;
  lseek_ok : bool;
  fopen_ok : bool;
  file : list byte;                   (* content of the input file *)
  rt : runtime
}.

(** Lines 136-176 of [main]: the checks made before the input file is
    touched; the result is the settings the options leave. *)
Definition check_args (inv : invocation) : proc settings :=
  (if (argc inv <? 2) || String.eqb (argv1 inv) "--help"
   then usage (2 <=? argc inv) else ret tt) ;;
  s <- getopt_loop (options inv) defaults ;;
  (if (width s =? 0) || (height s =? 0) || (skip s =? 0) || (zoom s =? 0)
   then usage false else ret tt) ;;
  (if negb (optind inv + 1 =? argc inv) then usage false else ret tt) ;;
  ret s.

(** Lines 177-223 of [main]: [stat], the height, the files, [doimage].
    The integer division of line 185 traps when the [int] product
    [zoom * skip * chrs] is zero. *)
Definition render_file (inv : invocation) (w : world) (s : settings)
  : proc Z :=
  emit (EStat (infilename inv)) ;;
  (if negb (stat_ok w)
   then emit (EPerror "Can't access infile") ;; exit 2 else ret tt) ;;
  let chrs := pal2chrs (pal s) in
  (if int_mul (int_mul (zoom s) (skip s)) chrs =? 0
   then killed SIGFPE else ret tt) ;;
  h <- scale_height (Z.of_nat (List.length (file w))) (width s) (height s)
         (zoom s) (skip s) chrs (hscale s) ;;
  emit (EOutputImage h (width s)) ;;
  emit (EOpen (infilename inv)) ;;
  (if negb (open_ok w)
   then emit (EPerror "Can't read") ;; exit 2 else ret tt) ;;
  (if negb (seek s =? 0) then
     emit (ELseek (seek s)) ;;
     (if (seek s <? 0) || negb (lseek_ok w)
      then emit (EPerror "Seek failed") ;; exit 2 else ret tt)
   else ret tt) ;;
  emit (EFopen (outfilename s)) ;;
  (if negb (fopen_ok w)
   then emit (EPerror "ERROR: Could not write") ;; exit 2 else ret tt) ;;
  emit (EWriting (outfilename s)) ;;
  let '(evs, result) :=
    doimage (rt w) (file w) (Z.to_nat (seek s)) (width s) h (pal s)
            (skip s) (zoom s) (mask s) in
  (evs, inl result).

Definition main_proc (inv : invocation) (w : world) : proc Z :=
  s <- check_args inv ;; render_file inv w s.

(** [main]: the events of the process and its exit status. *)
Definition main (inv : invocation) (w : world) : list event * Z :=
  match main_proc inv w with
  | (t, inl code) => (t, code)
  | (t, inr code) => (t, code)
  end.

Local Close Scope proc_scope.

(** ** Vocabulary of the properties *)

(** The three indicator sets of the x86 palette. *)
Definition x86_opcodes : list Z := [0x8b; 0xe8; 0x85].
Definition english_letters : list Z := [101; 116; 97].   (* 'e' 't' 'a' *)
Definition small_integers : list Z := [0x01; 0x02; 0x03].

Definition pure_red (p : rgb_t) : Prop :=
  chan_R p <> 0 /\ chan_G p = 0 /\ chan_B p = 0.
Definition pure_green (p : rgb_t) : Prop :=
  chan_R p = 0 /\ chan_G p <> 0 /\ chan_B p = 0.
Definition pure_blue (p : rgb_t) : Prop :=
  chan_R p = 0 /\ chan_G p = 0 /\ chan_B p <> 0.

(** Every channel is an 8-bit value. *)
Definition rgb_ok (p : rgb_t) : Prop :=
  0 <= chan_R p < 256 /\ 0 <= chan_G p < 256 /\ 0 <= chan_B p < 256.

(** Every channel has its low bit clear. *)
Definition even3 (p : rgb_t) : bool :=
  Z.even (chan_R p) && Z.even (chan_G p) && Z.even (chan_B p).

(** The [n] samples of a zoom window that starts at offset [xx]. *)
Fixpoint window (n : nat) (pal : palette_t) (inbuf : list byte)
    (xx last : Z) : list rgb_t :=
  match n with
  | O => []
  | S n' =>
      sample pal inbuf xx last
        :: window n' pal inbuf (xx + pal2chrs pal) last
  end.

(** Channel-wise sums of a list of colours, in unbounded integers. *)
Fixpoint totals (l : list rgb_t) : sum_t :=
  match l with
  | [] => (0, 0, 0)
  | (r, g, b) :: l' => let '(s0, s1, s2) := totals l' in (r + s0, g + s1, b + s2)
  end.

(** The accumulation step of the zoom loop. *)
Definition accumulate (zoom : Z) (s : sum_t) (c : rgb_t) : sum_t :=
  if 1 <? zoom then sum_add s c else s.

(** The number of complete [chrs]-sized units among [inn] bytes. *)
Definition complete_units (inn chrs : Z) : Z := inn / chrs.

(** A run time in which every allocation and every libpng call succeeds,
    fresh memory holds zero bytes and the locals start at [last0],
    [rgb0]. *)
Definition plain_runtime (last0 : Z) (rgb0 : rgb_t) : runtime :=
  {| malloc_ok := fun _ => true;
     png_create_ok := true;
     png_accepts := fun _ _ => true;
     png_row_ok := fun _ => true;
     png_end_ok := true;
     fresh_inbuf := fun _ => x00;
     fresh_locals := {| v_last := last0; v_rgb := rgb0 |} |}.

(** A file system in which every call succeeds. *)
Definition plain_world (content : list byte) (last0 : Z) (rgb0 : rgb_t)
  : world :=
  {| stat_ok := true; open_ok := true; lseek_ok := true; fopen_ok := true;
     file := content; rt := plain_runtime last0 rgb0 |}.

(** The dvi colour as the specification words it: the byte [cur] with
    the byte [prev] consumed immediately before it. *)
Definition dvi_claimed (cur prev : Z) : rgb_t :=
  (Z.abs (cur - prev), cur, (cur + prev) / 2).

(** The events by which [main] reports a usage error. *)
Definition is_report (e : event) : bool :=
  match e with
  | EUsage _ | EInvalidPalette => true
  | _ => false
  end.

(** The process ended with a non-zero status after a usage report and
    nothing else: no [stat], [open], [read] or row. *)
Definition rejected (r : list event * Z) : Prop :=
  snd r <> 0 /\ fst r <> [] /\ forallb is_report (fst r) = true.

(** The invocation with argument vector [argv], for which [getopt]
    returns [opts] and stops at index [ind]. *)
Definition invoke (argv : list string) (opts : list (ascii * string))
    (ind : nat) : invocation :=
  {| argc := Z.of_nat (List.length argv);
     argv1 := nth 1 argv EmptyString;
     options := opts;
     optind := Z.of_nat ind;
     infilename := nth ind argv EmptyString |}.

(** The height as the specification words it: the ceiling of the exact
    rational quotient [st_size / (zoom * skip * chrs) / width]. *)
Definition claimed_height (st_size zoom skip chrs width : Z) : Z :=
  Qceiling (inject_Z st_size / inject_Z (zoom * skip * chrs)
            / inject_Z width)%Q.

(** The ceiling of the rational quotient of the truncated integer
    quotient [st_size / (zoom * skip * chrs)] by [width], the divisor
    being the [int] product. *)
Definition truncated_height (st_size zoom skip chrs width : Z) : Z :=
  Qceiling (inject_Z (Z.quot st_size (int_mul (int_mul zoom skip) chrs))
            / inject_Z width)%Q.

(** The palette names, as the text of [usage] lists them. *)
Definition palette_name (p : palette_t) : string :=
  match p with
  | GRAY => "gray" | GRAY16B => "gray16b" | GRAY16L => "gray16l"
  | GRAY32B => "gray32b" | GRAY32L => "gray32l"
  | HUES => "hues" | HUES6 => "hues6" | FHUES => "fhues"
  | COLOR => "color" | COLOR16 => "color16" | COLOR32 => "color32"
  | RGB => "rgb" | DVI => "dvi" | X86 => "x86"
  end.

(** The rows handed to [png_write_row], in order. *)
Fixpoint rows_of (evs : list event) : list (list rgb_t) :=
  match evs with
  | [] => []
  | ERow r :: evs' => r :: rows_of evs'
  | _ :: evs' => rows_of evs'
  end.

(** The events that touch the content of the input file. *)
Definition is_read (e : event) : bool :=
  match e with
  | ERead _ _ => true
  | _ => false
  end.

(** The gray triple of a value. *)
Definition gray (v : Z) : rgb_t := (v, v, v).

(** Channel-wise order on colours. *)
Definition rgb_le (a b : rgb_t) : Prop :=
  chan_R a <= chan_R b /\ chan_G a <= chan_G b /\ chan_B a <= chan_B b.

(** The facts about [map_color16] that are checked on all pairs of bytes. *)
Definition color16_check (v0 v1 : Z) : bool :=
  let p := map_color16 (v0 + Z.shiftl v1 8) in
  even3 p
  && (chan_R p =? Z.land v1 0xfc)
  && (chan_G p =? Z.lor (Z.shiftl (Z.land v1 0x03) 6)
                        (Z.shiftr (Z.land v0 0xc0) 2))
  && (chan_B p =? Z.shiftl (Z.land v0 0x1f) 3)
  && (chan_R (map_color16 (Z.lxor v0 0x20 + Z.shiftl v1 8)) =? chan_R p)
  && (chan_G (map_color16 (Z.lxor v0 0x20 + Z.shiftl v1 8)) =? chan_G p)
  && (chan_B (map_color16 (Z.lxor v0 0x20 + Z.shiftl v1 8)) =? chan_B p).



(** ** Proof automation *)

(** Replaces the comparison [c] by its truth value, found by [lia]. *)
Ltac decide_cmp c :=
  let E := fresh "E" in
  first
    [ assert (E : c = true)
        by (first [apply Z.ltb_lt | apply Z.leb_le | apply Z.eqb_eq]; lia)
    | assert (E : c = false)
        by (first [apply Z.ltb_ge | apply Z.leb_gt | apply Z.eqb_neq]; lia) ];
  rewrite E; clear E.

(** Range facts about colours. *)
Create HintDb rgb.

(** ** [int] arithmetic *)

Lemma to_int_small (v : Z) : INT_MIN <= v <= INT_MAX -> to_int v = v.
Proof.
  unfold INT_MIN, INT_MAX, to_int. intros H.
  rewrite Z.mod_small by lia. lia.
Qed.

Lemma to_int_range (v : Z) : INT_MIN <= to_int v <= INT_MAX.
Proof.
  unfold INT_MIN, INT_MAX, to_int.
  pose proof (Z.mod_pos_bound (v + 2 ^ 31) (2 ^ 32)). lia.
Qed.

Lemma to_int_mul_l (a b : Z) : to_int (to_int a * b) = to_int (a * b).
Proof.
  unfold to_int. f_equal.
  rewrite (Z.mod_eq (a + 2 ^ 31) (2 ^ 32)) by lia.
  replace ((a + 2 ^ 31 - 2 ^ 32 * ((a + 2 ^ 31) / 2 ^ 32) - 2 ^ 31) * b
           + 2 ^ 31)
    with (a * b + 2 ^ 31 + (- ((a + 2 ^ 31) / 2 ^ 32) * b) * 2 ^ 32) by ring.
  apply Z_mod_plus_full.
Qed.

Lemma int_mul2 (a b c : Z) : int_mul (int_mul a b) c = to_int (a * b * c).
Proof. unfold int_mul. rewrite !to_int_mul_l. reflexivity. Qed.

Lemma int_mul3 (a b c d : Z) :
  int_mul (int_mul (int_mul a b) c) d = to_int (a * b * c * d).
Proof.
  unfold int_mul.
  rewrite to_int_mul_l, <- Z.mul_assoc, to_int_mul_l, Z.mul_assoc.
  reflexivity.
Qed.

(** A product that fits in an [int] is computed exactly. *)
Lemma int_mul3_small (a b c d : Z) :
  INT_MIN <= a * b * c * d <= INT_MAX ->
  int_mul (int_mul (int_mul a b) c) d = a * b * c * d.
Proof. intros H. rewrite int_mul3. apply to_int_small, H. Qed.

(** ** The palette mapper *)

Lemma byte_val_range (b : byte) : 0 <= byte_val b < 256.
Proof.
  unfold byte_val. pose proof (Byte.to_N_bounded b) as H.
  split; [apply N2Z.is_nonneg | ]. 
  apply N2Z.inj_le in H. simpl in H. lia.
Qed.

Lemma to_uchar_range (v : Z) : 0 <= to_uchar v < 256.
Proof. unfold to_uchar. apply Z.mod_pos_bound. lia. Qed.

Lemma to_uchar_small (v : Z) : 0 <= v < 256 -> to_uchar v = v.
Proof. intros H. unfold to_uchar. apply Z.mod_small. exact H. Qed.

Lemma store3_ok (r g b : Z) : rgb_ok (store3 r g b).
Proof.
  unfold rgb_ok, store3, chan_R, chan_G, chan_B; simpl.
  repeat split; apply to_uchar_range.
Qed.

Lemma rd_range (inbuf : list byte) (i : Z) : 0 <= rd inbuf i < 256.
Proof. unfold rd. apply byte_val_range. Qed.

Lemma map_x86_ok (c : Z) : rgb_ok (map_x86 c).
Proof.
  unfold map_x86. cbv zeta.
  destruct (_ =? 0); [apply store3_ok | ].
  unfold rgb_ok, chan_R, chan_G, chan_B; simpl.
  repeat split; apply to_uchar_range.
Qed.

Lemma map_hues_ok (c : Z) : rgb_ok (map_hues c).
Proof.
  unfold map_hues. cbv zeta.
  repeat (destruct (_ <? _)); apply store3_ok.
Qed.

Lemma map_hues6_ok (c : Z) : rgb_ok (map_hues6 c).
Proof.
  unfold map_hues6. cbv zeta.
  repeat (destruct (_ <? _)); apply store3_ok.
Qed.

Lemma map_fhues_ok (c : Z) : rgb_ok (map_fhues c).
Proof.
  unfold map_fhues. cbv zeta.
  repeat (destruct (_ <? _)); apply store3_ok.
Qed.

Lemma map_color16_ok (v : Z) : rgb_ok (map_color16 v).
Proof. unfold map_color16. apply store3_ok. Qed.

Lemma map_color32_ok (v : Z) : rgb_ok (map_color32 v).
Proof. unfold map_color32. apply store3_ok. Qed.

#[local] Hint Resolve store3_ok map_x86_ok map_hues_ok map_hues6_ok
  map_fhues_ok map_color16_ok map_color32_ok : rgb.

Lemma sample_ok (pal : palette_t) (inbuf : list byte) (xx last : Z) :
  rgb_ok (sample pal inbuf xx last).
Proof.
  unfold sample, decode; destruct pal; cbn [fst]; auto with rgb.
Qed.

(** The table of the x86 palette, checked on the 256 byte values. *)
Lemma map_x86_cases (b : byte) :
  let c := byte_val b in
  map_x86 c =
    if existsb (Z.eqb c) x86_opcodes then (c2v_x86 c, 0, 0)
    else if existsb (Z.eqb c) english_letters then (0, c2v_english c, 0)
    else if existsb (Z.eqb c) small_integers then (0, 0, c2v_binary c)
    else (c, c, c).
Proof. destruct b; vm_compute; reflexivity. Qed.

Lemma existsb_eqb_In (c : Z) (l : list Z) :
  existsb (Z.eqb c) l = true <-> In c l.
Proof.
  rewrite existsb_exists. split.
  - intros [y [Hy Hc]]. apply Z.eqb_eq in Hc. subst. exact Hy.
  - intros H. exists c. split; [exact H | apply Z.eqb_refl].
Qed.

Lemma existsb_eqb_notIn (c : Z) (l : list Z) :
  existsb (Z.eqb c) l = false <-> ~ In c l.
Proof.
  rewrite <- existsb_eqb_In. destruct (existsb (Z.eqb c) l); split;
    congruence.
Qed.

(** C3: the x86 palette sends each of the nine indicator bytes to a
    colour with one non-zero channel (red for the opcodes, green for the
    letters, blue for the small integers) holding one of the three
    distinct high values 0xff, 0xcf, 0xaf, and every other byte [b] to the
    gray triple [(b, b, b)]. *)
Theorem map_x86_indicator_table :
  map_x86 0x8b = (0xff, 0, 0) /\ map_x86 0xe8 = (0xcf, 0, 0)
  /\ map_x86 0x85 = (0xaf, 0, 0)
  /\ map_x86 101 = (0, 0xff, 0) /\ map_x86 116 = (0, 0xcf, 0)
  /\ map_x86 97 = (0, 0xaf, 0)
  /\ map_x86 0x01 = (0, 0, 0xff) /\ map_x86 0x02 = (0, 0, 0xcf)
  /\ map_x86 0x03 = (0, 0, 0xaf)
  /\ forall b : byte,
       ~ In (byte_val b) (x86_opcodes ++ english_letters ++ small_integers) ->
       map_x86 (byte_val b) = (byte_val b, byte_val b, byte_val b).
Proof.
  repeat (split; [reflexivity | ]).
  intros b H. pose proof (map_x86_cases b) as E. cbv zeta in E.
  rewrite !in_app_iff in H.
  assert (H1 : existsb (Z.eqb (byte_val b)) x86_opcodes = false)
    by (apply existsb_eqb_notIn; tauto).
  assert (H2 : existsb (Z.eqb (byte_val b)) english_letters = false)
    by (apply existsb_eqb_notIn; tauto).
  assert (H3 : existsb (Z.eqb (byte_val b)) small_integers = false)
    by (apply existsb_eqb_notIn; tauto).
  rewrite H1, H2, H3 in E. exact E.
Qed.

Lemma map_x86_indicator_table_witness :
  ~ In (byte_val x41) (x86_opcodes ++ english_letters ++ small_integers)
  /\ map_x86 (byte_val x41) = (65, 65, 65).
Proof.
  assert (H : ~ In (byte_val x41)
                (x86_opcodes ++ english_letters ++ small_integers)).
  { vm_compute. intros H.
    repeat (destruct H as [H | H]; [discriminate H | ]). exact H. }
  split; [exact H | ].
  exact (proj2 (proj2 (proj2 (proj2 (proj2 (proj2 (proj2 (proj2 (proj2
           map_x86_indicator_table)))))))) x41 H).
Defined.

(** C10: the three indicator sets are pairwise disjoint; for every byte
    at most one of [c2v_x86], [c2v_english], [c2v_binary] is non-zero; and
    every colour of the x86 palette is pure red, pure green, pure blue or
    the gray triple of the byte. *)
Theorem x86_indicators_exclusive :
  NoDup (x86_opcodes ++ english_letters ++ small_integers)
  /\ forall b : byte,
       let c := byte_val b in
       existsb (Z.eqb c) x86_opcodes = negb (c2v_x86 c =? 0)
       /\ existsb (Z.eqb c) english_letters = negb (c2v_english c =? 0)
       /\ existsb (Z.eqb c) small_integers = negb (c2v_binary c =? 0)
       /\ ((c2v_x86 c = 0 /\ c2v_english c = 0)
           \/ (c2v_x86 c = 0 /\ c2v_binary c = 0)
           \/ (c2v_english c = 0 /\ c2v_binary c = 0))
       /\ (pure_red (map_x86 c) \/ pure_green (map_x86 c)
           \/ pure_blue (map_x86 c) \/ map_x86 c = (c, c, c)).
Proof.
  split.
  - unfold x86_opcodes, english_letters, small_integers; simpl.
    repeat (constructor; [simpl; intuition discriminate | ]).
    constructor.
  - intros b.
    destruct b; vm_compute;
      (split; [reflexivity | split; [reflexivity | split; [reflexivity | ]]]);
      (split;
       [ first [ left; split; reflexivity
               | right; left; split; reflexivity
               | right; right; split; reflexivity ]
       | first [ right; right; right; reflexivity
               | left; repeat split; discriminate
               | right; left; repeat split; discriminate
               | right; right; left; repeat split; discriminate ] ]).
Qed.

(** ** The zoom window *)

Lemma pal2chrs_pos (pal : palette_t) : 1 <= pal2chrs pal <= 4.
Proof. destruct pal; simpl; lia. Qed.

Lemma decode_sample (pal : palette_t) (inbuf : list byte) (xx last : Z) :
  decode pal inbuf xx last
  = (sample pal inbuf xx last, xx + pal2chrs pal - 1).
Proof.
  unfold sample; destruct pal; simpl; f_equal; lia.
Qed.

Lemma last_cons_default {A : Type} (a d : A) (l : list A) :
  List.last (a :: l) d = List.last l a.
Proof.
  revert a d. induction l as [| b l IH]; intros a d; [reflexivity | ].
  change (List.last (a :: b :: l) d) with (List.last (b :: l) d).
  rewrite (IH b d), (IH b a). reflexivity.
Qed.

(** The zoom loop visits the samples of [window], leaves the last of them
    in [rgb], and advances [xx] by [pal2chrs pal] per sample. *)
Lemma zoom_loop_window (n : nat) (pal : palette_t) (inbuf : list byte)
    (zoom xx last : Z) (rgb : rgb_t) (sum : sum_t) :
  zoom_loop n pal inbuf zoom xx last rgb sum
  = (List.last (window n pal inbuf xx last) rgb,
     xx + Z.of_nat n * pal2chrs pal,
     fold_left (accumulate zoom) (window n pal inbuf xx last) sum).
Proof.
  revert xx rgb sum.
  induction n as [| n IH]; intros xx rgb sum.
  - simpl. repeat f_equal. lia.
  - cbn [zoom_loop window]. rewrite decode_sample.
    replace (xx + pal2chrs pal - 1 + 1) with (xx + pal2chrs pal) by lia.
    rewrite IH. cbn [fold_left]. unfold accumulate at 2.
    f_equal. f_equal.
    + symmetry. apply last_cons_default.
    + lia.
Qed.

Lemma window_length (n : nat) (pal : palette_t) (inbuf : list byte)
    (xx last : Z) : List.length (window n pal inbuf xx last) = n.
Proof.
  revert xx. induction n as [| n IH]; intros xx; simpl; [ | rewrite IH ];
    reflexivity.
Qed.

Lemma window_ok (n : nat) (pal : palette_t) (inbuf : list byte)
    (xx last : Z) : Forall rgb_ok (window n pal inbuf xx last).
Proof.
  revert xx. induction n as [| n IH]; intros xx; simpl; constructor;
    [apply sample_ok | apply IH].
Qed.

Lemma totals_bound (l : list rgb_t) :
  Forall rgb_ok l ->
  let '(t0, t1, t2) := totals l in
  0 <= t0 <= 255 * Z.of_nat (List.length l)
  /\ 0 <= t1 <= 255 * Z.of_nat (List.length l)
  /\ 0 <= t2 <= 255 * Z.of_nat (List.length l).
Proof.
  induction 1 as [| [[r g] b] l Hc Hl IH].
  - simpl. lia.
  - cbn [totals List.length]. destruct (totals l) as [[t0 t1] t2].
    unfold rgb_ok, chan_R, chan_G, chan_B in Hc; simpl in Hc.
    rewrite Nat2Z.inj_succ. lia.
Qed.

(** While the running sums stay below 2^64 the accumulation in
    [unsigned long] is the accumulation in the integers. *)
Lemma accumulate_totals (zoom : Z) (l : list rgb_t) (s0 s1 s2 : Z) :
  1 < zoom ->
  Forall rgb_ok l ->
  0 <= s0 -> 0 <= s1 -> 0 <= s2 ->
  s0 + 255 * Z.of_nat (List.length l) < 2 ^ 64 ->
  s1 + 255 * Z.of_nat (List.length l) < 2 ^ 64 ->
  s2 + 255 * Z.of_nat (List.length l) < 2 ^ 64 ->
  fold_left (accumulate zoom) l (s0, s1, s2)
  = let '(t0, t1, t2) := totals l in (s0 + t0, s1 + t1, s2 + t2).
Proof.
  intros Hz Hl. revert s0 s1 s2.
  induction Hl as [| [[r g] b] l Hc Hl IH]; intros s0 s1 s2 P0 P1 P2 B0 B1 B2.
  - simpl. repeat f_equal; lia.
  - cbn [fold_left totals]. unfold accumulate at 2.
    assert (E : (1 <? zoom) = true) by (apply Z.ltb_lt; exact Hz).
    rewrite E. unfold sum_add, to_ulong.
    unfold rgb_ok, chan_R, chan_G, chan_B in Hc; simpl in Hc.
    cbn [List.length] in B0, B1, B2. rewrite Nat2Z.inj_succ in B0, B1, B2.
    rewrite !Z.mod_small by lia.
    rewrite IH by lia.
    destruct (totals l) as [[t0 t1] t2]. cbv beta iota zeta.
    f_equal; [f_equal | ]; lia.
Qed.

Lemma totals_repeat (X : rgb_t) (n : nat) :
  totals (repeat X n)
  = (Z.of_nat n * chan_R X, Z.of_nat n * chan_G X, Z.of_nat n * chan_B X).
Proof.
  destruct X as [[r g] b]. unfold chan_R, chan_G, chan_B; simpl fst; simpl snd.
  induction n as [| n IH].
  - reflexivity.
  - cbn [repeat totals]. rewrite IH. rewrite Nat2Z.inj_succ.
    f_equal; [f_equal | ]; lia.
Qed.

(** The value of a pixel before masking, for a zoom factor above one:
    the channel totals of the window divided by the zoom factor. *)
Lemma unmasked_zoomed (pal : palette_t) (inbuf : list byte) (zoom xx : Z)
    (st : locals) :
  1 < zoom <= INT_MAX ->
  unmasked pal inbuf zoom xx st
  = (let '(t0, t1, t2) :=
       totals (window (Z.to_nat zoom) pal inbuf xx (v_last st)) in
     (t0 / zoom, t1 / zoom, t2 / zoom),
     xx + zoom * pal2chrs pal).
Proof.
  intros Hz. unfold INT_MAX in Hz. unfold unmasked.
  rewrite zoom_loop_window.
  pose proof (window_ok (Z.to_nat zoom) pal inbuf xx (v_last st)) as Hok.
  pose proof (window_length (Z.to_nat zoom) pal inbuf xx (v_last st)) as Hlen.
  rewrite accumulate_totals;
    try (rewrite ?Hlen, ?Z2Nat.id; lia); try exact Hok.
  pose proof (totals_bound _ Hok) as Hb. rewrite Hlen, Z2Nat.id in Hb by lia.
  destruct (totals _) as [[t0 t1] t2].
  unfold average.
  assert (E : (1 <? zoom) = true) by (apply Z.ltb_lt; lia). rewrite E.
  unfold to_ulong. rewrite (Z.mod_small zoom) by lia.
  rewrite Z2Nat.id by lia. f_equal. simpl Z.add.
  assert (D : forall t, 0 <= t <= 255 * zoom -> to_uchar (t / zoom) = t / zoom).
  { intros t Ht. apply to_uchar_small. split.
    - apply Z.div_pos; lia.
    - apply Z.div_lt_upper_bound; lia. }
  unfold store3. rewrite !D by lia. reflexivity.
Qed.

Lemma unmasked_zoom1 (pal : palette_t) (inbuf : list byte) (xx : Z)
    (st : locals) :
  unmasked pal inbuf 1 xx st
  = (sample pal inbuf xx (v_last st), xx + pal2chrs pal).
Proof.
  unfold unmasked. change (Z.to_nat 1) with 1%nat. cbn [zoom_loop].
  rewrite decode_sample. cbn. f_equal. lia.
Qed.

Lemma window_const (n : nat) (pal : palette_t) (inbuf : list byte)
    (xx last : Z) (X : rgb_t) :
  (forall i, 0 <= i < Z.of_nat n ->
             sample pal inbuf (xx + i * pal2chrs pal) last = X) ->
  window n pal inbuf xx last = repeat X n.
Proof.
  revert xx. induction n as [| n IH]; intros xx H; [reflexivity | ].
  cbn [window repeat]. f_equal.
  - rewrite <- (H 0) by lia. f_equal. lia.
  - apply IH. intros i Hi. rewrite <- (H (i + 1)) by lia. f_equal. lia.
Qed.

(** C5: with zoom 1 a pixel is the colour of its one sample, untouched
    before the mask is applied; with zoom N > 1, when the N samples of the
    window all decode to the same colour X, the average is X. *)
Theorem zoom_average_identity :
  (forall pal inbuf inn mask x xx st,
      xx + pal2chrs pal <= inn ->
      fst (unmasked pal inbuf 1 xx st) = sample pal inbuf xx (v_last st)
      /\ fst (fst (pixel pal inbuf inn 1 mask x xx st))
         = apply_mask mask (sample pal inbuf xx (v_last st)))
  /\ (forall pal inbuf inn zoom mask x xx st X,
      1 < zoom <= INT_MAX ->
      xx + pal2chrs pal <= inn ->
      (forall i, 0 <= i < zoom ->
                 sample pal inbuf (xx + i * pal2chrs pal) (v_last st) = X) ->
      fst (unmasked pal inbuf zoom xx st) = X
      /\ fst (fst (pixel pal inbuf inn zoom mask x xx st)) = apply_mask mask X).
Proof.
  split.
  - intros pal inbuf inn mask x xx st Hin.
    split; [rewrite unmasked_zoom1; reflexivity | ].
    unfold pixel. decide_cmp (inn <? xx + pal2chrs pal).
    rewrite unmasked_zoom1. reflexivity.
  - intros pal inbuf inn zoom mask x xx st X Hz Hin HX.
    assert (U : fst (unmasked pal inbuf zoom xx st) = X).
    { rewrite unmasked_zoomed by exact Hz.
      rewrite (window_const _ _ _ _ _ X)
        by (intros i Hi; apply HX; unfold INT_MAX in Hz; lia).
      rewrite totals_repeat. cbn [fst].
      pose proof (sample_ok pal inbuf (xx + 0 * pal2chrs pal) (v_last st)) as Hok.
      rewrite HX in Hok by lia.
      destruct X as [[r g] b]. unfold chan_R, chan_G, chan_B. cbn [fst snd].
      unfold INT_MAX in Hz.
      rewrite Z2Nat.id by lia.
      rewrite !(Z.mul_comm zoom), !Z.div_mul by lia. reflexivity. }
    split; [exact U | ].
    unfold pixel. decide_cmp (inn <? xx + pal2chrs pal).
    destruct (unmasked pal inbuf zoom xx st) as [u xx1].
    cbn [fst] in U |- *. rewrite U. reflexivity.
Qed.

Lemma zoom_average_identity_witness :
  fst (fst (pixel GRAY [x05; x05; x07] 3 2 0 0 0
              {| v_last := 9; v_rgb := (1, 2, 3) |})) = (5, 5, 5).
Proof.
  refine (proj2 (proj2 zoom_average_identity GRAY [x05; x05; x07] 3 2 0 0 0
                   {| v_last := 9; v_rgb := (1, 2, 3) |} (5, 5, 5) _ _ _)).
  - unfold INT_MAX. lia.
  - simpl. lia.
  - intros i Hi. assert (C : i = 0 \/ i = 1) by lia.
    destruct C as [-> | ->]; reflexivity.
Defined.

(** C9: for a zoom factor N in [1, INT_MAX] the channel sums of a zoom
    window are the exact totals of the samples (the 64-bit accumulator
    never wraps around), they are at most 255 * N, which is below 2^64,
    and the averaged channels are 8-bit values. *)
Theorem zoom_sum_bounded (pal : palette_t) (inbuf : list byte)
    (zoom xx last : Z) (rgb0 : rgb_t) :
  1 <= zoom <= INT_MAX ->
  let '(rgb1, _, sum) :=
    zoom_loop (Z.to_nat zoom) pal inbuf zoom xx last rgb0 (0, 0, 0) in
  sum = (if 1 <? zoom
         then totals (window (Z.to_nat zoom) pal inbuf xx last)
         else (0, 0, 0))
  /\ (let '(s0, s1, s2) := sum in
      0 <= s0 <= 255 * zoom /\ 0 <= s1 <= 255 * zoom /\ 0 <= s2 <= 255 * zoom)
  /\ 255 * zoom < 2 ^ 64
  /\ rgb_ok (average zoom rgb1 sum).
Proof.
  intros Hz. unfold INT_MAX in Hz. rewrite zoom_loop_window.
  pose proof (window_ok (Z.to_nat zoom) pal inbuf xx last) as Hok.
  pose proof (window_length (Z.to_nat zoom) pal inbuf xx last) as Hlen.
  pose proof (totals_bound _ Hok) as Hb. rewrite Hlen, Z2Nat.id in Hb by lia.
  destruct (Z.ltb_spec 1 zoom) as [Hgt | Hle].
  - rewrite accumulate_totals;
      try (rewrite ?Hlen, ?Z2Nat.id; lia); try exact Hok.
    destruct (totals _) as [[t0 t1] t2]. simpl Z.add.
    split; [reflexivity | ]. split; [exact Hb | ]. split; [lia | ].
    unfold average. assert (E : (1 <? zoom) = true) by (apply Z.ltb_lt; lia).
    rewrite E. apply store3_ok.
  - assert (zoom = 1) by lia. subst zoom.
    change (Z.to_nat 1) with 1%nat. cbn [window fold_left List.last].
    unfold accumulate, average. change (1 <? 1) with false. cbv beta iota.
    split; [reflexivity | ]. split; [lia | ]. split; [lia | ].
    apply sample_ok.
Qed.

Lemma zoom_sum_bounded_witness :
  let '(rgb1, _, sum) :=
    zoom_loop (Z.to_nat 2) RGB [xff; xfe; xfd; xff; x01; x02] 2 0 0
              (0, 0, 0) (0, 0, 0) in
  sum = (510, 255, 255) /\ rgb_ok (average 2 rgb1 sum).
Proof.
  pose proof (zoom_sum_bounded RGB [xff; xfe; xfd; xff; x01; x02] 2 0 0
                (0, 0, 0)) as H.
  assert (Hz : 1 <= 2 <= INT_MAX) by (unfold INT_MAX; lia).
  specialize (H Hz).
  destruct (zoom_loop _ _ _ _ _ _ _ _) as [[rgb1 xx1] sum].
  destruct H as [Hs [_ [_ Hr]]].
  split; [rewrite Hs; reflexivity | exact Hr].
Defined.

(** ** One row *)

Lemma last_nonempty {A : Type} (a : A) (l : list A) (d d' : A) :
  List.last (a :: l) d = List.last (a :: l) d'.
Proof. rewrite !last_cons_default. reflexivity. Qed.

Section Row.

Variables (pal : palette_t) (inbuf : list byte) (inn zoom mask : Z).

Lemma pixel_black (x xx : Z) (st : locals) :
  inn < xx + pal2chrs pal ->
  pixel pal inbuf inn zoom mask x xx st = (black, xx, st).
Proof.
  intros H. unfold pixel.
  decide_cmp (inn <? xx + pal2chrs pal). reflexivity.
Qed.

Lemma pixel_live (x xx : Z) (st : locals) :
  xx + pal2chrs pal <= inn ->
  pixel pal inbuf inn zoom mask x xx st
  = (apply_mask mask (fst (unmasked pal inbuf zoom xx st)),
     snd (unmasked pal inbuf zoom xx st),
     {| v_last := rd inbuf x;
        v_rgb := apply_mask mask (fst (unmasked pal inbuf zoom xx st)) |}).
Proof.
  intros H. unfold pixel.
  decide_cmp (inn <? xx + pal2chrs pal).
  destruct (unmasked pal inbuf zoom xx st). reflexivity.
Qed.

Lemma unmasked_xx (xx : Z) (st : locals) :
  snd (unmasked pal inbuf zoom xx st) = xx + Z.max 0 zoom * pal2chrs pal.
Proof.
  unfold unmasked. rewrite zoom_loop_window. cbn [snd].
  f_equal. f_equal. destruct zoom; simpl; lia.
Qed.

Lemma row_loop_S (n : nat) (x xx : Z) (st : locals) :
  fst (row_loop (S n) pal inbuf inn zoom mask x xx st)
  = fst (fst (pixel pal inbuf inn zoom mask x xx st))
      :: fst (row_loop n pal inbuf inn zoom mask (x + 1)
                (snd (fst (pixel pal inbuf inn zoom mask x xx st)))
                (snd (pixel pal inbuf inn zoom mask x xx st))).
Proof.
  cbn [row_loop].
  destruct (pixel pal inbuf inn zoom mask x xx st) as [[p xx'] st'].
  cbn [fst snd]. destruct (row_loop n pal inbuf inn zoom mask (x + 1) xx' st').
  reflexivity.
Qed.

Lemma row_loop_length (n : nat) (x xx : Z) (st : locals) :
  List.length (fst (row_loop n pal inbuf inn zoom mask x xx st)) = n.
Proof.
  revert x xx st. induction n as [| n IH]; intros x xx st; [reflexivity | ].
  rewrite row_loop_S. cbn [List.length]. rewrite IH. reflexivity.
Qed.

(** From here on the zoom loop runs at least once. *)
Hypothesis Hzoom : 1 <= zoom.

(** The stale content of [rgb] does not reach the pixel. *)
Lemma unmasked_rgb_irrelevant (xx : Z) (st : locals) (rgb0 : rgb_t) :
  unmasked pal inbuf zoom xx st
  = unmasked pal inbuf zoom xx {| v_last := v_last st; v_rgb := rgb0 |}.
Proof.
  unfold unmasked. rewrite !zoom_loop_window. cbn [v_last v_rgb].
  destruct (Z.to_nat zoom) as [| n] eqn:E; [lia | ].
  cbn [window]. rewrite (last_nonempty _ _ (v_rgb st) rgb0). reflexivity.
Qed.

(** Once the chunk is exhausted at the start of a pixel, that pixel and
    all further pixels of the row are black. *)
Lemma row_loop_black_nth (n : nat) (x0 xx0 : Z) (st : locals) (i : nat)
    (d : rgb_t) :
  (i < n)%nat ->
  inn < xx0 + Z.of_nat i * (zoom * pal2chrs pal) + pal2chrs pal ->
  nth i (fst (row_loop n pal inbuf inn zoom mask x0 xx0 st)) d = black.
Proof.
  revert i x0 xx0 st.
  induction n as [| n IH]; intros i x0 xx0 st Hi Hin; [lia | ].
  pose proof (pal2chrs_pos pal) as Hc.
  rewrite row_loop_S.
  destruct (Z.lt_ge_cases inn (xx0 + pal2chrs pal)) as [Hx | Hl].
  - rewrite pixel_black by exact Hx. cbn [fst snd].
    destruct i as [| i]; [reflexivity | ]. cbn [nth].
    apply IH; [lia | nia].
  - rewrite pixel_live by exact Hl. cbn [fst snd].
    destruct i as [| i]; [cbn [Z.of_nat] in Hin; lia | ]. cbn [nth].
    apply IH; [lia | ]. rewrite unmasked_xx.
    rewrite Z.max_r by lia. rewrite Nat2Z.inj_succ in Hin. nia.
Qed.

(** A pixel whose first unit is complete is computed from the bytes at
    offset [i * zoom * chrs] of the chunk. *)
Lemma row_loop_live_nth (n : nat) (x0 xx0 : Z) (st : locals) (i : nat)
    (d rgb0 : rgb_t) :
  (i < n)%nat ->
  xx0 + Z.of_nat i * (zoom * pal2chrs pal) + pal2chrs pal <= inn ->
  nth i (fst (row_loop n pal inbuf inn zoom mask x0 xx0 st)) d
  = apply_mask mask
      (fst (unmasked pal inbuf zoom (xx0 + Z.of_nat i * (zoom * pal2chrs pal))
              {| v_last := if Z.of_nat i =? 0 then v_last st
                           else rd inbuf (x0 + Z.of_nat i - 1);
                 v_rgb := rgb0 |})).
Proof.
  revert i x0 xx0 st.
  induction n as [| n IH]; intros i x0 xx0 st Hi Hin; [lia | ].
  pose proof (pal2chrs_pos pal) as Hc.
  rewrite row_loop_S.
  assert (Hl : xx0 + pal2chrs pal <= inn) by nia.
  rewrite pixel_live by exact Hl. cbn [fst snd].
  destruct i as [| i].
  - cbn [nth Z.of_nat]. change (0 =? 0) with true. cbv iota.
    rewrite (unmasked_rgb_irrelevant xx0 st rgb0).
    do 3 f_equal. lia.
  - cbn [nth]. rewrite unmasked_xx, Z.max_r by lia.
    rewrite Nat2Z.inj_succ in Hin |- *.
    rewrite (IH i (x0 + 1) (xx0 + zoom * pal2chrs pal) _) by (lia || nia).
    cbn [v_last].
    assert (E : (Z.succ (Z.of_nat i) =? 0) = false) by (apply Z.eqb_neq; lia).
    rewrite E.
    replace (xx0 + zoom * pal2chrs pal + Z.of_nat i * (zoom * pal2chrs pal))
      with (xx0 + Z.succ (Z.of_nat i) * (zoom * pal2chrs pal)) by lia.
    destruct (Z.eqb_spec (Z.of_nat i) 0) as [E0 | E0].
    + replace (x0 + Z.succ (Z.of_nat i) - 1) with x0 by lia. reflexivity.
    + replace (x0 + Z.succ (Z.of_nat i) - 1)
        with (x0 + 1 + Z.of_nat i - 1) by lia. reflexivity.
Qed.

End Row.

(** ** Masking *)

Lemma masked_channel_even (v : Z) :
  Z.even (to_uchar (Z.land v BYTE_MASK)) = true.
Proof.
  unfold to_uchar, BYTE_MASK.
  rewrite <- Z.negb_odd, <- Z.bit0_odd.
  change 256 with (2 ^ 8). rewrite Z.mod_pow2_bits_low by lia.
  rewrite Z.land_spec. change (Z.testbit 254 0) with false.
  rewrite andb_false_r. reflexivity.
Qed.

Lemma apply_mask_even (mask : Z) (p : rgb_t) :
  mask <> 0 -> even3 (apply_mask mask p) = true.
Proof.
  intros Hm. unfold apply_mask.
  decide_cmp (mask =? 0). destruct p as [[r g] b].
  unfold even3, store3, chan_R, chan_G, chan_B. cbn [fst snd].
  rewrite !masked_channel_even. reflexivity.
Qed.

Lemma pixel_even (pal : palette_t) (inbuf : list byte)
    (inn zoom mask x xx : Z) (st : locals) :
  mask <> 0 ->
  even3 (fst (fst (pixel pal inbuf inn zoom mask x xx st))) = true.
Proof.
  intros Hm.
  destruct (Z.lt_ge_cases inn (xx + pal2chrs pal)) as [Hx | Hl].
  - rewrite pixel_black by exact Hx. reflexivity.
  - rewrite pixel_live by exact Hl. cbn [fst]. apply apply_mask_even, Hm.
Qed.

Lemma row_loop_even (n : nat) (pal : palette_t) (inbuf : list byte)
    (inn zoom mask x xx : Z) (st : locals) :
  mask <> 0 ->
  forallb even3 (fst (row_loop n pal inbuf inn zoom mask x xx st)) = true.
Proof.
  intros Hm. revert x xx st.
  induction n as [| n IH]; intros x xx st; [reflexivity | ].
  rewrite row_loop_S. cbn [forallb].
  rewrite pixel_even by exact Hm. rewrite IH. reflexivity.
Qed.

Lemma rows_loop_even (n : nat) (pal : palette_t) (width skip zoom mask : Z)
    (file : list byte) (pos : nat) (inbuf : list byte) (st : locals)
    (row : list rgb_t) :
  mask <> 0 ->
  In (ERow row)
     (rows_loop n pal width skip zoom mask file pos inbuf st) ->
  forallb even3 row = true.
Proof.
  intros Hm. revert pos inbuf st.
  induction n as [| n IH]; intros pos inbuf st H; [destruct H | ].
  cbn [rows_loop] in H.
  destruct (read file pos inbuf _) as [[inn inbuf'] pos'].
  destruct (dorow pal width zoom mask inbuf' inn st) as [r st'] eqn:E.
  destruct H as [H | [H | H]].
  - discriminate H.
  - injection H as <-.
    change r with (fst (r, st')). rewrite <- E. unfold dorow.
    apply row_loop_even, Hm.
  - apply IH in H. exact H.
Qed.

(** The shape of what [doimage] emits: some rows of the loop, then the
    end of the image or an error message. *)
Lemma doimage_cases (rt : runtime) (file : list byte) (pos : nat)
    (width height : Z) (pal : palette_t) (skip zoom mask : Z) :
  exists (n : nat) (inbuf : list byte) (tail : list event),
    (n <= Z.to_nat height)%nat
    /\ fst (doimage rt file pos width height pal skip zoom mask)
       = (rows_loop n pal width skip zoom mask file pos inbuf
                    (fresh_locals rt) ++ tail)%list
    /\ ((snd (doimage rt file pos width height pal skip zoom mask) = 0
         /\ n = Z.to_nat height /\ tail = [EEnd])
        \/ (snd (doimage rt file pos width height pal skip zoom mask) = 1
            /\ exists msg, tail = [EPerror msg]
                           \/ tail = [EEnd; EPerror msg])).
Proof.
  unfold doimage.
  destruct (negb _).
  { exists 0%nat, [], [EPerror "Out of memory"].
    split; [lia | ]. split; [reflexivity | ]. right.
    split; [reflexivity | ]. eexists. left. reflexivity. }
  destruct (negb _).
  { exists 0%nat, [], [EPerror "Error during png creation"].
    split; [lia | ]. split; [reflexivity | ]. right.
    split; [reflexivity | ]. eexists. left. reflexivity. }
  destruct (find _ _) as [y | ] eqn:F.
  { apply find_some in F. destruct F as [F _]. apply in_seq in F.
    eexists (S y), _, _. split; [lia | ]. split; [reflexivity | ]. right.
    split; [reflexivity | ]. eexists. left. reflexivity. }
  destruct (png_end_ok rt).
  - eexists _, _, _. split; [apply Nat.le_refl | ]. split; [reflexivity | ].
    left. repeat split.
  - eexists _, _, _. split; [apply Nat.le_refl | ]. split; [reflexivity | ].
    right. split; [reflexivity | ]. eexists. right. reflexivity.
Qed.

Lemma doimage_rows_even (rt : runtime) (file : list byte) (pos : nat)
    (width height : Z) (pal : palette_t) (skip zoom mask : Z)
    (row : list rgb_t) :
  mask <> 0 ->
  In (ERow row) (fst (doimage rt file pos width height pal skip zoom mask)) ->
  forallb even3 row = true.
Proof.
  intros Hm.
  destruct (doimage_cases rt file pos width height pal skip zoom mask)
    as [n [inbuf [tail [_ [E T]]]]].
  rewrite E, in_app_iff. intros [H | H].
  - eapply rows_loop_even; eassumption.
  - destruct T as [[_ [_ ->]] | [_ [msg [-> | ->]]]]; cbn in H;
      repeat (destruct H as [H | H]; [discriminate H | ]); destruct H.
Qed.

(** C6: with masking enabled every channel of every pixel of every row
    that [doimage] writes is even, whatever the palette, zoom, skip and
    input; with masking disabled odd channel values do occur. *)
Theorem masked_channels_even :
  (forall rt file pos width height pal skip zoom mask row,
      mask <> 0 ->
      In (ERow row)
         (fst (doimage rt file pos width height pal skip zoom mask)) ->
      forallb even3 row = true)
  /\ (In (ERow [(1, 1, 1)])
         (fst (doimage (plain_runtime 0 black) [x01] 0 1 1 GRAY 1 1 0))
      /\ forallb even3 [(1, 1, 1)] = false).
Proof.
  split.
  - intros. eapply doimage_rows_even; eassumption.
  - split; [vm_compute; right; left; reflexivity | reflexivity].
Qed.

Lemma masked_channels_even_witness :
  forallb even3 [(254, 254, 254); (6, 6, 6)] = true.
Proof.
  refine (proj1 masked_channels_even (plain_runtime 0 black) [xff; x07] 0%nat
            2 1 GRAY 1 1 1 [(254, 254, 254); (6, 6, 6)] _ _).
  - lia.
  - vm_compute. right; left; reflexivity.
Defined.

(** C4: in a row whose chunk holds [inn] bytes, every pixel that starts
    at or after the end of the last complete [chrs]-sized unit is exactly
    (0,0,0), for every palette, zoom factor and mask; the row still has
    [width] pixels, and the status returned by [doimage] does not depend
    on the content of the input. *)
Theorem exhausted_pixels_black :
  (forall pal width zoom mask inbuf inn st x,
      1 <= zoom -> 0 <= x < width ->
      complete_units inn (pal2chrs pal) <= x * zoom ->
      nth_error (fst (dorow pal width zoom mask inbuf inn st)) (Z.to_nat x)
      = Some black)
  /\ (forall pal width zoom mask inbuf inn st,
      List.length (fst (dorow pal width zoom mask inbuf inn st))
      = Z.to_nat width)
  /\ (forall rt file file' pos width height pal skip zoom mask,
      snd (doimage rt file pos width height pal skip zoom mask)
      = snd (doimage rt file' pos width height pal skip zoom mask)).
Proof.
  split; [ | split].
  - intros pal width zoom mask inbuf inn st x Hz Hx Hu.
    unfold dorow, complete_units in *.
    pose proof (pal2chrs_pos pal) as Hc.
    rewrite (nth_error_nth' _ black) by (rewrite row_loop_length; lia).
    f_equal. apply row_loop_black_nth; [exact Hz | lia | ].
    rewrite Z2Nat.id by lia.
    pose proof (Z.mul_succ_div_gt inn (pal2chrs pal)) as Hd.
    nia.
  - intros. unfold dorow. apply row_loop_length.
  - intros. unfold doimage.
    destruct (negb _); [reflexivity | ].
    destruct (negb _); [reflexivity | ].
    destruct (find _ _); [reflexivity | ].
    destruct (png_end_ok _); reflexivity.
Qed.

Lemma exhausted_pixels_black_witness :
  nth_error (fst (dorow GRAY16B 3 2 1 [x09; x08; x07; x06; x05] 5
                    {| v_last := 0; v_rgb := black |})) (Z.to_nat 1)
  = Some black.
Proof.
  refine (proj1 exhausted_pixels_black GRAY16B 3 2 1
            [x09; x08; x07; x06; x05] 5 {| v_last := 0; v_rgb := black |} 1
            _ _ _).
  - lia.
  - lia.
  - vm_compute. discriminate.
Defined.

(** ** The bytes a row depends on *)

Lemma decode_ext (pal : palette_t) (b1 b2 : list byte) (xx last : Z) :
  (forall j, xx <= j < xx + pal2chrs pal -> rd b1 j = rd b2 j) ->
  decode pal b1 xx last = decode pal b2 xx last.
Proof.
  intros H. destruct pal; simpl in H; unfold decode;
    rewrite ?(H xx), ?(H (xx + 1)), ?(H (xx + 2)), ?(H (xx + 3)) by lia;
    reflexivity.
Qed.

Lemma zoom_loop_ext (n : nat) (pal : palette_t) (b1 b2 : list byte)
    (zoom xx last : Z) (rgb : rgb_t) (sum : sum_t) :
  (forall j, xx <= j < xx + Z.of_nat n * pal2chrs pal -> rd b1 j = rd b2 j) ->
  zoom_loop n pal b1 zoom xx last rgb sum
  = zoom_loop n pal b2 zoom xx last rgb sum.
Proof.
  revert xx rgb sum. induction n as [| n IH]; intros xx rgb sum H;
    [reflexivity | ].
  pose proof (pal2chrs_pos pal) as Hc.
  rewrite Nat2Z.inj_succ in H.
  cbn [zoom_loop]. rewrite (decode_ext pal b1 b2) by (intros j Hj; apply H; nia).
  rewrite decode_sample. apply IH. intros j Hj. apply H. nia.
Qed.

Lemma unmasked_ext (pal : palette_t) (b1 b2 : list byte) (zoom xx : Z)
    (st : locals) :
  (forall j, xx <= j < xx + Z.max 0 zoom * pal2chrs pal ->
             rd b1 j = rd b2 j) ->
  unmasked pal b1 zoom xx st = unmasked pal b2 zoom xx st.
Proof.
  intros H. unfold unmasked. rewrite (zoom_loop_ext _ pal b1 b2); [reflexivity | ].
  intros j Hj. apply H. lia.
Qed.

Lemma pixel_ext (pal : palette_t) (b1 b2 : list byte)
    (inn zoom mask x xx : Z) (st : locals) :
  (forall j, xx <= j < xx + Z.max 0 zoom * pal2chrs pal ->
             rd b1 j = rd b2 j) ->
  rd b1 x = rd b2 x ->
  pixel pal b1 inn zoom mask x xx st = pixel pal b2 inn zoom mask x xx st.
Proof.
  intros H Hx. unfold pixel. rewrite (unmasked_ext pal b1 b2) by exact H.
  rewrite Hx. reflexivity.
Qed.

Lemma row_loop_ext (n : nat) (pal : palette_t) (b1 b2 : list byte)
    (inn zoom mask x xx : Z) (st : locals) :
  1 <= zoom -> 0 <= x -> 0 <= xx <= x * (zoom * pal2chrs pal) ->
  (forall j, 0 <= j < (x + Z.of_nat n) * (zoom * pal2chrs pal) ->
             rd b1 j = rd b2 j) ->
  row_loop n pal b1 inn zoom mask x xx st
  = row_loop n pal b2 inn zoom mask x xx st.
Proof.
  intros Hz. revert x xx st.
  induction n as [| n IH]; intros x xx st Hx Hxx H; [reflexivity | ].
  pose proof (pal2chrs_pos pal) as Hc.
  rewrite Nat2Z.inj_succ in H.
  cbn [row_loop].
  rewrite (pixel_ext pal b1 b2);
    [ | intros j Hj; apply H; rewrite Z.max_r in Hj by lia; nia
      | apply H; nia ].
  destruct (Z.lt_ge_cases inn (xx + pal2chrs pal)) as [Hb | Hl].
  - rewrite pixel_black by exact Hb.
    rewrite (IH (x + 1) xx st); [reflexivity | lia | nia | ].
    intros j Hj. apply H. nia.
  - rewrite pixel_live by exact Hl.
    rewrite unmasked_xx, Z.max_r by lia.
    rewrite (IH (x + 1) (xx + zoom * pal2chrs pal)); [reflexivity | lia | nia | ].
    intros j Hj. apply H. nia.
Qed.

Lemma rows_loop_requests (n : nat) (pal : palette_t)
    (width skip zoom mask : Z) (file : list byte) (pos : nat)
    (inbuf : list byte) (st : locals) (nbyte inn : Z) :
  In (ERead nbyte inn)
     (rows_loop n pal width skip zoom mask file pos inbuf st) ->
  nbyte = int_mul (int_mul (int_mul width (pal2chrs pal)) skip) zoom.
Proof.
  revert pos inbuf st.
  induction n as [| n IH]; intros pos inbuf st H; [destruct H | ].
  cbn [rows_loop] in H.
  destruct (read file pos inbuf _) as [[inn' inbuf'] pos'].
  destruct (dorow pal width zoom mask inbuf' inn' st) as [r st'].
  destruct H as [H | [H | H]].
  - injection H as <- _. reflexivity.
  - discriminate H.
  - apply IH in H. exact H.
Qed.

(** C2, as the code has it: the skip factor K only enlarges the chunk
    read for a row: the size requested is the [int] product
    [width * chrs * K * zoom], which is that many bytes whenever the
    product fits in an [int].  Pixel [x] of the row is computed from the
    bytes at offset [x * chrs * zoom] of the chunk, whatever K is, and
    the row does not depend on the bytes of the chunk from offset
    [width * chrs * zoom] on: whole trailing lines are dropped, nothing
    is dropped between two pixels. *)
Theorem skip_drops_trailing_lines :
  (forall n pal width skip zoom mask file pos inbuf st nbyte inn,
      In (ERead nbyte inn)
         (rows_loop n pal width skip zoom mask file pos inbuf st) ->
      nbyte = int_mul (int_mul (int_mul width (pal2chrs pal)) skip) zoom
      /\ (INT_MIN <= width * pal2chrs pal * skip * zoom <= INT_MAX ->
          nbyte = width * pal2chrs pal * skip * zoom))
  /\ (forall pal width zoom mask inbuf inn st x rgb0,
      1 <= zoom -> 0 <= x < width ->
      x * pal2chrs pal * zoom + pal2chrs pal <= inn ->
      nth_error (fst (dorow pal width zoom mask inbuf inn st)) (Z.to_nat x)
      = Some (apply_mask mask
                (fst (unmasked pal inbuf zoom (x * pal2chrs pal * zoom)
                        {| v_last := if x =? 0 then v_last st
                                     else rd inbuf (x - 1);
                           v_rgb := rgb0 |}))))
  /\ (forall pal width zoom mask b1 b2 inn st,
      1 <= zoom ->
      (forall j, 0 <= j < width * pal2chrs pal * zoom -> rd b1 j = rd b2 j) ->
      dorow pal width zoom mask b1 inn st
      = dorow pal width zoom mask b2 inn st).
Proof.
  split; [ | split].
  - intros n pal width skip zoom mask file pos inbuf st nbyte inn H.
    apply rows_loop_requests in H. split; [exact H | ].
    intros Hfit. rewrite H. apply int_mul3_small, Hfit.
  - intros pal width zoom mask inbuf inn st x rgb0 Hz Hx Hin.
    unfold dorow.
    rewrite (nth_error_nth' _ black) by (rewrite row_loop_length; lia).
    f_equal.
    rewrite (row_loop_live_nth pal inbuf inn zoom mask Hz _ _ _ _ _ _ rgb0);
      [ | lia | rewrite Z2Nat.id by lia; lia ].
    rewrite Z2Nat.id by lia.
    replace (0 + x * (zoom * pal2chrs pal)) with (x * pal2chrs pal * zoom)
      by lia.
    replace (0 + x - 1) with (x - 1) by lia. reflexivity.
  - intros pal width zoom mask b1 b2 inn st Hz H.
    unfold dorow.
    destruct (Z.le_gt_cases width 0) as [Hw | Hw].
    + replace (Z.to_nat width) with 0%nat by lia. reflexivity.
    + apply row_loop_ext; [exact Hz | lia | lia | ].
      intros j Hj. apply H. rewrite Z2Nat.id in Hj by lia. lia.
Qed.

Lemma skip_drops_trailing_lines_witness :
  nth_error (fst (dorow GRAY 2 1 0 [x0a; x14; x1e; x28] 4
                    {| v_last := 0; v_rgb := black |})) (Z.to_nat 1)
  = Some (20, 20, 20).
Proof.
  refine (proj1 (proj2 skip_drops_trailing_lines) GRAY 2 1 0
            [x0a; x14; x1e; x28] 4 {| v_last := 0; v_rgb := black |} 1 black
            _ _ _).
  - lia.
  - lia.
  - simpl. lia.
Defined.

(** C2 as stated fails: with skip factor 2 (gray palette, width 2,
    zoom 1, no mask) the chunk of the row is 10 20 30 40, and pixel 1 is
    made from the byte at offset 1, not from the one at offset
    [1 * chrs * zoom * skip = 2]. *)
Lemma skip_offset_counterexample :
  fst (doimage (plain_runtime 0 black) [x0a; x14; x1e; x28] 0 2 1 GRAY 2 1 0)
  = [ERead 4 4; ERow [(10, 10, 10); (20, 20, 20)]; EEnd]
  /\ sample GRAY [x0a; x14; x1e; x28] (1 * pal2chrs GRAY * 1 * 2) 0
     = (30, 30, 30)
  /\ nth 1 [(10, 10, 10); (20, 20, 20)] black
     <> sample GRAY [x0a; x14; x1e; x28] (1 * pal2chrs GRAY * 1 * 2) 0.
Proof.
  split; [vm_compute; reflexivity | ].
  split; [vm_compute; reflexivity | ].
  vm_compute. discriminate.
Qed.

(** ** The dvi palette *)

(** C7, evaluated on the code.  The history byte [last] is not the byte
    consumed immediately before the current one, and it is not 0 at the
    first sample.  With zoom 2 on the bytes 0 10 20 30 (width 2, no mask)
    the second pixel averages the samples of 20 and 30, both taken against
    [inbuf[0] = 0] (the cell indexed by the pixel offset [x]), and is
    (25,25,12); against the bytes 10 and 20 that precede them it would be
    (10,25,20).  The first sample of a run is taken against the content
    that [last] happens to have at entry. *)
Theorem dvi_history_divergence :
  (forall st,
      nth_error (fst (dorow DVI 2 2 0 [x00; x0a; x14; x1e] 4 st)) 1
      = Some (25, 25, 12))
  /\ (let '(r1, g1, b1) := dvi_claimed 20 10 in
      let '(r2, g2, b2) := dvi_claimed 30 20 in
      ((r1 + r2) / 2, (g1 + g2) / 2, (b1 + b2) / 2)) = (10, 25, 20)
  /\ fst (doimage (plain_runtime 7 black) [x0a] 0 1 1 DVI 1 1 0)
     = [ERead 1 1; ERow [(3, 10, 8)]; EEnd]
  /\ dvi_claimed 10 0 = (10, 10, 5).
Proof.
  split; [ | split; [ | split]].
  - intros st.
    assert (E : nth_error (fst (dorow DVI 2 2 0 [x00; x0a; x14; x1e] 4 st)) 1
                = Some (nth 1 (fst (dorow DVI 2 2 0 [x00; x0a; x14; x1e] 4 st))
                            black)).
    { apply nth_error_nth'. unfold dorow. rewrite row_loop_length. simpl. lia. }
    rewrite E. destruct st as [l c]. reflexivity.
  - vm_compute. reflexivity.
  - vm_compute. reflexivity.
  - vm_compute. reflexivity.
Qed.

(** ** Option handling *)

Lemma getopt_case_outcome (s : settings) (o : ascii * string) :
  (exists s', getopt_case s o = ([], inl s'))
  \/ getopt_case s o = ([EUsage false], inr 1)
  \/ getopt_case s o = ([EInvalidPalette], inr 3).
Proof.
  destruct o as [opt optarg]. destruct s. unfold getopt_case.
  repeat (destruct (Ascii.eqb opt _); [left; eexists; reflexivity | ]).
  destruct (Ascii.eqb opt _).
  - destruct (atopal optarg); [left; eexists; reflexivity | right; right; reflexivity].
  - repeat (destruct (Ascii.eqb opt _); [left; eexists; reflexivity | ]).
    destruct (Ascii.eqb opt _); [right; left; reflexivity | left; eexists; reflexivity].
Qed.

Lemma getopt_loop_outcome (os : list (ascii * string)) (s : settings) :
  (exists s', getopt_loop os s = ([], inl s'))
  \/ getopt_loop os s = ([EUsage false], inr 1)
  \/ getopt_loop os s = ([EInvalidPalette], inr 3).
Proof.
  revert s. induction os as [| o os IH]; intros s.
  - left. exists s. reflexivity.
  - cbn [getopt_loop].
    destruct (getopt_case_outcome s o) as [[s' E] | [E | E]]; rewrite E.
    + unfold bind. destruct (IH s') as [[s'' E'] | [E' | E']]; rewrite E'.
      * left. exists s''. reflexivity.
      * right; left. reflexivity.
      * right; right. reflexivity.
    + right; left. reflexivity.
    + right; right. reflexivity.
Qed.

Lemma getopt_loop_invalid_palette (os : list (ascii * string))
    (name : string) (s : settings) :
  In ("p"%char, name) os -> atopal name = None ->
  getopt_loop os s = ([EUsage false], inr 1)
  \/ getopt_loop os s = ([EInvalidPalette], inr 3).
Proof.
  intros Hin Hbad. revert s.
  induction os as [| o os IH]; intros s; [destruct Hin | ].
  cbn [getopt_loop].
  destruct Hin as [-> | Hin].
  - right. destruct s. unfold getopt_case. cbn. rewrite Hbad. reflexivity.
  - destruct (getopt_case_outcome s o) as [[s' E] | [E | E]]; rewrite E.
    + unfold bind. destruct (IH Hin s') as [E' | E']; rewrite E'.
      * left. reflexivity.
      * right. reflexivity.
    + left. reflexivity.
    + right. reflexivity.
Qed.

Lemma bind_ret {A B : Type} (a : A) (f : A -> proc B) :
  bind ([], inl a) f = f a.
Proof. unfold bind. destruct (f a). reflexivity. Qed.

Lemma rejected_usage (full : bool) : rejected ([EUsage full], 1).
Proof. repeat split; [discriminate | discriminate]. Qed.

Lemma rejected_palette : rejected ([EInvalidPalette], 3).
Proof. repeat split; [discriminate | discriminate]. Qed.

(** When the checks end the process, [main] ends there. *)
Lemma check_args_exit_rejected (inv : invocation) (w : world) :
  (exists full, check_args inv = ([EUsage full], inr 1))
  \/ check_args inv = ([EInvalidPalette], inr 3) ->
  rejected (main inv w).
Proof.
  unfold main, main_proc. intros [[full E] | E]; rewrite E; cbn [bind].
  - apply rejected_usage.
  - apply rejected_palette.
Qed.

(** C8, as the code has it: an invalid palette name among the options,
    a width, height, skip factor or zoom factor equal to zero once the
    options are processed, or a wrong argument count end the process with
    a non-zero status after a usage report, before [stat], [open] and any
    [read] of the input. *)
Theorem bad_invocation_rejected (inv : invocation) (w : world) :
  (exists name, In ("p"%char, name) (options inv) /\ atopal name = None)
  \/ (exists s, getopt_loop (options inv) defaults = ([], inl s)
                /\ (width s = 0 \/ height s = 0 \/ skip s = 0 \/ zoom s = 0))
  \/ argc inv < 2
  \/ optind inv + 1 <> argc inv ->
  rejected (main inv w).
Proof.
  intros H. apply check_args_exit_rejected.
  unfold check_args.
  destruct ((argc inv <? 2) || String.eqb (argv1 inv) "--help") eqn:E1.
  { left. exists (2 <=? argc inv). reflexivity. }
  apply orb_false_iff in E1. destruct E1 as [E1 _]. apply Z.ltb_ge in E1.
  unfold ret. cbv iota. rewrite (bind_ret tt).
  destruct H as [[name [Hin Hbad]] | H].
  { destruct (getopt_loop_invalid_palette _ _ defaults Hin Hbad) as [E | E];
      rewrite E; [left; exists false | right]; reflexivity. }
  destruct (getopt_loop_outcome (options inv) defaults) as [[s E] | [E | E]];
    rewrite E; [ | left; exists false; reflexivity | right; reflexivity ].
  rewrite (bind_ret s).
  destruct ((width s =? 0) || (height s =? 0) || (skip s =? 0) || (zoom s =? 0))
    eqn:E2.
  { left. exists false. reflexivity. }
  cbv iota. rewrite (bind_ret tt).
  destruct H as [[s' [E' Hz]] | H].
  { rewrite E in E'. injection E' as <-.
    rewrite !orb_false_iff in E2. rewrite !Z.eqb_neq in E2. tauto. }
  destruct H as [H | H]; [lia | ].
  assert (E3 : (optind inv + 1 =? argc inv) = false) by (apply Z.eqb_neq; exact H).
  rewrite E3. left. exists false. reflexivity.
Qed.

Lemma bad_invocation_rejected_witness :
  rejected (main (invoke ["dump2png"; "-w"; "0"; "core"]%string
                    [("w"%char, "0"%string)] 3)
                 (plain_world [x01; x02] 0 black)).
Proof.
  apply bad_invocation_rejected.
  right; left. eexists. split; [vm_compute; reflexivity | ].
  left. reflexivity.
Defined.

(** C8 as stated fails for negative values: [dump2png -z -1 -k -1 -w 2
    core] passes the checks, reads the input, writes a row and ends with
    status 0. *)
Lemma negative_factors_counterexample :
  let inv := invoke ["dump2png"; "-z"; "-1"; "-k"; "-1"; "-w"; "2"; "core"]%string
               [("z"%char, "-1"%string); ("k"%char, "-1"%string);
                ("w"%char, "2"%string)] 7 in
  let w := plain_world [x01; x02] 0 (7, 7, 7) in
  (exists s, getopt_loop (options inv) defaults = ([], inl s)
             /\ zoom s < 0 /\ skip s < 0)
  /\ snd (main inv w) = 0
  /\ In (ERead 2 2) (fst (main inv w))
  /\ In (ERow [(6, 6, 6); (6, 6, 6)]) (fst (main inv w))
  /\ ~ rejected (main inv w).
Proof.
  cbv zeta. split; [ | split; [ | split; [ | split]]].
  - eexists. split; [vm_compute; reflexivity | ]. cbn. lia.
  - vm_compute. reflexivity.
  - vm_compute. tauto.
  - vm_compute. tauto.
  - intros [H _]. apply H. vm_compute. reflexivity.
Qed.

(** ** Single precision division of integers below 2^24

    Both operands convert exactly to mantissas of 24 digits; the quotient
    of the mantissas has 24 or 25 digits, so rounding shifts by at most
    one position, and the rounded quotient keeps the ceiling of the exact
    one. *)

Lemma digits2_pos_bounds (p : positive) :
  2 ^ (Zpos (digits2_pos p) - 1) <= Zpos p < 2 ^ Zpos (digits2_pos p).
Proof.
  induction p as [p IH | p IH | ]; cbn [digits2_pos].
  - rewrite Pos2Z.inj_succ.
    replace (Z.succ (Zpos (digits2_pos p)) - 1) with (Z.succ (Zpos (digits2_pos p) - 1)) by lia.
    rewrite !Z.pow_succ_r by lia. lia.
  - rewrite Pos2Z.inj_succ.
    replace (Z.succ (Zpos (digits2_pos p)) - 1) with (Z.succ (Zpos (digits2_pos p) - 1)) by lia.
    rewrite !Z.pow_succ_r by lia. lia.
  - simpl. lia.
Qed.

Lemma digits2_pos_unique (p : positive) (k : Z) :
  2 ^ (k - 1) <= Zpos p < 2 ^ k -> Zpos (digits2_pos p) = k.
Proof.
  intros H. pose proof (digits2_pos_bounds p) as B.
  set (d := Zpos (digits2_pos p)) in *.
  assert (Hd : 0 < d) by (subst d; lia).
  assert (Hk : 0 < k).
  { destruct (Z.lt_ge_cases 0 k) as [Hk | Hk]; [exact Hk | ].
    destruct H as [_ H]. 
    assert (2 ^ k <= 1).
    { destruct (Z.eq_dec k 0) as [-> | Hn]; [simpl; lia | ].
      rewrite Z.pow_neg_r by lia. lia. }
    lia. }
  destruct (Z.lt_trichotomy d k) as [Hlt | [Heq | Hgt]]; [ | exact Heq | ].
  - assert (2 ^ d <= 2 ^ (k - 1)) by (apply Z.pow_le_mono_r; lia). lia.
  - assert (2 ^ k <= 2 ^ (d - 1)) by (apply Z.pow_le_mono_r; lia). lia.
Qed.

Lemma iter_xO_pow (p k : positive) :
  Zpos (Pos.iter xO p k) = Zpos p * 2 ^ Zpos k.
Proof.
  induction k as [| k IH] using Pos.peano_ind.
  - simpl. lia.
  - rewrite Pos.iter_succ, Pos2Z.inj_succ, Z.pow_succ_r by lia.
    rewrite Pos2Z.inj_xO, IH. lia.
Qed.

Lemma loc_of_shr_record_of_loc (m : Z) (l : location) :
  loc_of_shr_record (shr_record_of_loc m l) = l.
Proof. destruct l as [| []]; reflexivity. Qed.

Lemma shr_m_record_of_loc (m : Z) (l : location) :
  shr_m (shr_record_of_loc m l) = m.
Proof. destruct l as [| []]; reflexivity. Qed.


Lemma fexp24 (d : Z) : -125 <= d -> fexp 24 128 d = d - 24.
Proof. intros H. unfold fexp, emin. lia. Qed.

Lemma rne_bounds (m : Z) (l : location) :
  m <= round_nearest_even m l <= m + 1.
Proof.
  unfold round_nearest_even. destruct l as [| []]; try lia.
  destruct (Z.even m); lia.
Qed.

Lemma Zdigits2_unique (m k : Z) :
  0 < m -> 2 ^ (k - 1) <= m < 2 ^ k -> Zdigits2 m = k.
Proof.
  intros Hm H. destruct m as [| p | p]; try lia.
  simpl. apply digits2_pos_unique. exact H.
Qed.

(** Rounding a mantissa of exactly 24 digits. *)
Lemma shr_fexp_24 (m e : Z) (l : location) :
  2 ^ 23 <= m < 2 ^ 24 -> -149 <= e ->
  shr_fexp 24 128 m e l = (shr_record_of_loc m l, e).
Proof.
  intros Hm He. unfold shr_fexp.
  rewrite (Zdigits2_unique m 24) by (simpl; lia).
  rewrite fexp24 by lia.
  replace (24 + e - 24 - e) with 0 by lia. reflexivity.
Qed.

Lemma shr_fexp_25 (m e : Z) (l : location) :
  2 ^ 24 <= m < 2 ^ 25 -> -149 <= e ->
  shr_fexp 24 128 m e l = (shr_1 (shr_record_of_loc m l), e + 1).
Proof.
  intros Hm He. unfold shr_fexp.
  rewrite (Zdigits2_unique m 25) by (simpl; lia).
  rewrite fexp24 by lia.
  replace (25 + e - 24 - e) with 1 by lia. reflexivity.
Qed.

Lemma binary_round_aux_24 (s : bool) (m e : Z) (l : location) :
  2 ^ 23 <= m < 2 ^ 24 -> -149 <= e <= 103 ->
  binary_round_aux 24 128 s m e l
  = (let m1 := round_nearest_even m l in
     if m1 <? 2 ^ 24 then S754_finite s (Z.to_pos m1) e
     else S754_finite s (Z.to_pos (2 ^ 23)) (e + 1)).
Proof.
  intros Hm He. unfold binary_round_aux.
  rewrite shr_fexp_24 by lia.
  rewrite loc_of_shr_record_of_loc, shr_m_record_of_loc.
  pose proof (rne_bounds m l) as B. cbv zeta.
  set (m1 := round_nearest_even m l) in *.
  destruct (Z.ltb_spec m1 (2 ^ 24)) as [Hlt | Hge].
  - rewrite shr_fexp_24 by lia. cbn [shr_record_of_loc shr_m].
    destruct m1 as [| p | p]; try lia. 
    assert (E : (e <=? 128 - 24) = true) by (apply Z.leb_le; lia).
    rewrite E. reflexivity.
  - assert (E1 : m1 = 2 ^ 24) by lia. rewrite E1.
    rewrite shr_fexp_25 by lia. 
    assert (E : (e + 1 <=? 128 - 24) = true) by (apply Z.leb_le; lia).
    cbn. cbn in E. rewrite E. reflexivity.
Qed.

Lemma shr_1_halves (m : Z) (l : location) :
  0 < m ->
  let r := shr_1 (shr_record_of_loc m l) in
  shr_m r = m / 2
  /\ shr_r r = Z.odd m
  /\ (l = loc_Exact -> shr_s r = false)
  /\ (l <> loc_Exact -> shr_s r = true).
Proof.
  intros Hm. destruct m as [| p | p]; try lia.
  assert (D : forall x, Z.pos x~1 / 2 = Z.pos x /\ Z.pos x~0 / 2 = Z.pos x).
  { intros x. split; [rewrite Pos2Z.inj_xI | rewrite Pos2Z.inj_xO].
    - symmetry. apply (Z.div_unique _ _ _ 1); lia.
    - symmetry. apply (Z.div_unique _ _ _ 0); lia. }
  destruct p as [p | p | ]; destruct l as [| []]; cbn;
    rewrite ?(proj1 (D p)), ?(proj2 (D p));
    repeat split; try reflexivity; try congruence; intros; try discriminate.
Qed.

Lemma shr_1_round (m : Z) (l : location) :
  0 < m ->
  let r := shr_1 (shr_record_of_loc m l) in
  let m1 := round_nearest_even (shr_m r) (loc_of_shr_record r) in
  m / 2 <= m1 <= m / 2 + 1
  /\ (m1 = m / 2 + 1 -> Z.odd m = true)
  /\ (Z.odd m = true -> l <> loc_Exact -> m1 = m / 2 + 1).
Proof.
  intros Hm. cbv zeta.
  destruct (shr_1_halves m l Hm) as [Em [Er [Es0 Es1]]].
  destruct (shr_1 (shr_record_of_loc m l)) as [m' r s].
  cbn [shr_m shr_r shr_s] in *. subst m'.
  split; [apply rne_bounds | ]. split.
  - destruct r, s; cbn; intros H; try lia; symmetry; exact Er.
  - intros Ho Hl. rewrite Ho in Er. subst r. rewrite (Es1 Hl). reflexivity.
Qed.

Lemma binary_round_aux_25 (s : bool) (m e : Z) (l : location) :
  2 ^ 24 <= m < 2 ^ 25 -> -149 <= e <= 102 ->
  binary_round_aux 24 128 s m e l
  = (let r := shr_1 (shr_record_of_loc m l) in
     let m1 := round_nearest_even (shr_m r) (loc_of_shr_record r) in
     if m1 <? 2 ^ 24 then S754_finite s (Z.to_pos m1) (e + 1)
     else S754_finite s (Z.to_pos (2 ^ 23)) (e + 2)).
Proof.
  intros Hm He. unfold binary_round_aux.
  rewrite shr_fexp_25 by lia.
  assert (Hpos : 0 < m) by (simpl in Hm; lia).
  pose proof (shr_1_round m l Hpos) as B. cbv zeta in B |- *.
  set (m1 := round_nearest_even _ _) in *.
  destruct B as [B _].
  assert (Hh : 2 ^ 23 <= m / 2 < 2 ^ 24).
  { simpl in Hm |- *. split. 
    - apply Z.div_le_lower_bound; lia. 
    - apply Z.div_lt_upper_bound; lia. }
  destruct (Z.ltb_spec m1 (2 ^ 24)) as [Hlt | Hge].
  - rewrite shr_fexp_24 by lia. cbn [shr_record_of_loc shr_m].
    destruct m1 as [| p | p]; try lia.
    assert (E : (e + 1 <=? 128 - 24) = true) by (apply Z.leb_le; lia).
    rewrite E. reflexivity.
  - assert (E1 : m1 = 2 ^ 24) by lia. rewrite E1.
    rewrite shr_fexp_25 by lia.
    assert (E : (e + 1 + 1 <=? 128 - 24) = true) by (apply Z.leb_le; lia).
    cbn. cbn in E. rewrite E. f_equal. lia.
Qed.

Lemma new_location_cases (b r : Z) :
  new_location b r
  = if r =? 0 then loc_Exact else loc_Inexact (2 * r ?= b).
Proof.
  unfold new_location, new_location_even, new_location_odd.
  destruct (Z.even b) eqn:Eb; [reflexivity | ].
  destruct (r =? 0); [reflexivity | ]. f_equal.
  destruct (Z.compare_spec (2 * r + 1) b) as [H | H | H];
    destruct (Z.compare_spec (2 * r) b) as [H' | H' | H'];
    try reflexivity; try lia.
  subst b. rewrite Z.even_mul in Eb. discriminate Eb.
Qed.

Lemma div_core_24 (a b : positive) (ex ey : Z) :
  2 ^ 23 <= Zpos a < 2 ^ 24 -> 2 ^ 23 <= Zpos b < 2 ^ 24 ->
  -100 <= ex - ey <= 100 ->
  SFdiv_core_binary 24 128 (Zpos a) ex (Zpos b) ey
  = (Zpos a * 2 ^ 24 / Zpos b, ex - ey - 24,
     new_location (Zpos b) ((Zpos a * 2 ^ 24) mod Zpos b)).
Proof.
  intros Ha Hb He. unfold SFdiv_core_binary.
  cbn [Zdigits2].
  rewrite (digits2_pos_unique a 24), (digits2_pos_unique b 24) by (simpl; lia).
  rewrite fexp24 by lia.
  replace (Z.min (24 + ex - (24 + ey) - 24) (ex - ey)) with (ex - ey - 24) by lia.
  replace (ex - ey - (ex - ey - 24)) with 24 by lia.
  cbv zeta iota beta.
  rewrite Z.shiftl_mul_pow2 by lia.
  unfold Z.div, Z.modulo.
  destruct (Z.div_eucl (Zpos a * 2 ^ 24) (Zpos b)) as [Q R]. reflexivity.
Qed.

Lemma of_Z_normal (q : Z) :
  0 < q < 2 ^ 24 ->
  exists (a : positive) (k : Z),
    0 <= k <= 23 /\ Zpos a = q * 2 ^ k /\ 2 ^ 23 <= Zpos a < 2 ^ 24
    /\ F32.of_Z q = S754_finite false a (- k).
Proof.
  intros Hq. destruct q as [| p | p]; try lia.
  pose proof (digits2_pos_bounds p) as B.
  unfold F32.of_Z, F32.prec, F32.emax, binary_normalize, binary_round.
  set (d := Zpos (digits2_pos p)) in *.
  assert (Hd : 1 <= d <= 24).
  { split; [subst d; lia | ].
    destruct (Z.le_gt_cases d 24) as [H | H]; [exact H | ].
    assert (2 ^ 24 <= 2 ^ (d - 1)) by (apply Z.pow_le_mono_r; lia). lia. }
  rewrite fexp24 by lia. unfold shl_align.
  destruct (d + 0 - 24 - 0) as [| k' | k'] eqn:E; try lia.
  - exists p, 0. replace (- 0) with 0 by lia.
    assert (d = 24) by lia. 
    assert (Hp : 2 ^ 23 <= Zpos p < 2 ^ 24) by (replace 23 with (d - 1) by lia; lia).
    split; [lia | ]. split; [simpl; lia | ]. split; [exact Hp | ].
    rewrite binary_round_aux_24 by lia.
    cbn [round_nearest_even]. cbv zeta.
    assert (L : (Zpos p <? 2 ^ 24) = true) by (apply Z.ltb_lt; lia).
    rewrite L. reflexivity.
  - exists (Pos.iter xO p k'), (24 - d).
    assert (Ek : Zpos k' = 24 - d) by lia.
    assert (Ea : Zpos (Pos.iter xO p k') = Zpos p * 2 ^ (24 - d))
      by (rewrite iter_xO_pow, Ek; reflexivity).
    assert (Hp : 2 ^ 23 <= Zpos (Pos.iter xO p k') < 2 ^ 24).
    { rewrite Ea.
      replace (2 ^ 23) with (2 ^ (d - 1) * 2 ^ (24 - d))
        by (rewrite <- Z.pow_add_r by lia; f_equal; lia).
      replace (2 ^ 24) with (2 ^ d * 2 ^ (24 - d))
        by (rewrite <- Z.pow_add_r by lia; f_equal; lia).
      assert (0 < 2 ^ (24 - d)) by (apply Z.pow_pos_nonneg; lia).
      nia. }
    split; [lia | ]. split; [exact Ea | ]. split; [exact Hp | ].
    rewrite binary_round_aux_24 by lia.
    cbn [round_nearest_even]. cbv zeta.
    assert (L : (Zpos (Pos.iter xO p k') <? 2 ^ 24) = true)
      by (apply Z.ltb_lt; lia).
    rewrite L. cbn [Z.to_pos]. f_equal. lia.
Qed.

Lemma ceil_finite (mr : positive) (er K m1 n : Z) :
  0 <= K -> 0 <= er + K ->
  Zpos mr * 2 ^ (er + K) = m1 ->
  (n - 1) * 2 ^ K < m1 <= n * 2 ^ K ->
  F32.ceil (S754_finite false mr er) = Some n.
Proof.
  intros HK HeK Hv Hn. unfold F32.ceil. f_equal.
  destruct (Z.leb_spec 0 er) as [He | He].
  - rewrite Z.pow_add_r in Hv by lia.
    assert (0 < 2 ^ K) by (apply Z.pow_pos_nonneg; lia).
    nia.
  - assert (E : 2 ^ K = 2 ^ (- er) * 2 ^ (er + K))
      by (rewrite <- Z.pow_add_r by lia; f_equal; lia).
    assert (0 < 2 ^ (- er)) by (apply Z.pow_pos_nonneg; lia).
    assert (0 < 2 ^ (er + K)) by (apply Z.pow_pos_nonneg; lia).
    set (T := 2 ^ (- er)) in *. set (S := 2 ^ (er + K)) in *.
    assert (B : (n - 1) * T < Zpos mr <= n * T) by nia.
    assert (D : - Zpos mr / T = - n).
    { symmetry. apply (Z.div_unique _ _ _ (n * T - Zpos mr)); lia. }
    rewrite D. lia.
Qed.

(** Rounding moves up only when the remainder is not zero. *)
Lemma rne_up_inexact (m r : Z) (c : comparison) :
  round_nearest_even m (if r =? 0 then loc_Exact else loc_Inexact c) = m + 1 ->
  r <> 0.
Proof.
  destruct (Z.eqb_spec r 0) as [E | E]; [cbn; lia | intros _; exact E].
Qed.

(** The quotient of two integers below 2^24, computed in single
    precision, has the ceiling of the exact quotient. *)
Lemma float_ceil_div (q w : Z) :
  0 <= q < 2 ^ 24 -> 0 < w < 2 ^ 24 ->
  F32.ceil (F32.div (F32.of_Z q) (F32.of_Z w)) = Some (- (- q / w)).
Proof.
  intros Hq Hw.
  destruct (of_Z_normal w Hw) as (b & k2 & Hk2 & Eb & Bb & Ew). rewrite Ew.
  destruct (Z.eq_dec q 0) as [-> | Hq0].
  { cbn. reflexivity. }
  destruct (of_Z_normal q) as (a & k1 & Hk1 & Ea & Ba & Eq); [lia | ].
  rewrite Eq. unfold F32.div, F32.prec, F32.emax, SFdiv.
  rewrite div_core_24 by lia. rewrite new_location_cases.
  cbn [xorb].
  (* the ceiling n of q / w *)
  set (n := - (- q / w)).
  assert (Hn : (n - 1) * w < q <= n * w).
  { pose proof (Z.div_mod (- q) w) as D.
    pose proof (Z.mod_pos_bound (- q) w) as M. subst n. nia. }
  (* scaling *)
  set (K := 24 + k1 - k2).
  assert (HK : 1 <= K) by (subst K; lia).
  assert (HA1 : 1 <= 2 ^ k1) by (pose proof (Z.pow_pos_nonneg 2 k1); lia).
  assert (HA2 : 0 < 2 ^ k2) by (apply Z.pow_pos_nonneg; lia).
  assert (HT : 2 ^ K * 2 ^ k2 = 2 ^ 24 * 2 ^ k1)
    by (rewrite <- !Z.pow_add_r by lia; f_equal; subst K; lia).
  assert (HP : Zpos a * 2 ^ 24 = q * 2 ^ K * 2 ^ k2) by (rewrite Ea; nia).
  rewrite HP, Eb.
  rewrite Z.div_mul_cancel_r by lia.
  rewrite Z.mul_mod_distr_r by lia.
  set (T := 2 ^ K) in *. set (X := q * T).
  pose proof (Z.div_mod X w) as DX.
  pose proof (Z.mod_pos_bound X w) as MX.
  set (Q := X / w) in *. set (R := X mod w) in *.
  assert (HwT : w < T) by nia.
  assert (HTpos : 0 < T) by lia.
  (* the quotient lies strictly above (n - 1) T *)
  assert (HXlo : w * ((n - 1) * T + 1) < X) by (subst X; nia).
  assert (HQlo : (n - 1) * T + 1 <= Q) by nia.
  assert (HQhi : Q <= n * T) by (subst X; nia).
  assert (HRX : Q = (n - 1) * T + 1 -> R <> 0) by nia.
  assert (HRhi : R <> 0 -> Q < n * T) by (subst X; nia).
  (* the quotient has 24 or 25 digits *)
  assert (HQ23 : 2 ^ 23 <= Q < 2 ^ 25).
  { assert (E1 : X * 2 ^ k2 = Zpos a * 2 ^ 24) by (subst X; lia).
    assert (E2 : w * 2 ^ k2 = Zpos b) by lia.
    split.
    - assert (2 ^ 23 * w <= X) by nia. 
      apply Z.div_le_lower_bound; lia.
    - assert (X < 2 ^ 25 * w) by nia.
      apply Z.div_lt_upper_bound; lia. }
  assert (Hloc : (R * 2 ^ k2 =? 0) = (R =? 0)).
  { destruct (Z.eqb_spec R 0) as [-> | Hr]; [reflexivity | ].
    apply Z.eqb_neq. nia. }
  rewrite Hloc.
  replace (- k1 - - k2 - 24) with (- K) by (subst K; lia).
  destruct (Z.lt_ge_cases Q (2 ^ 24)) as [H24 | H25].
  - (* 24 digits: no shift before rounding *)
    rewrite binary_round_aux_24 by lia. cbv zeta.
    pose proof (rne_bounds Q (if R =? 0 then loc_Exact
                              else loc_Inexact (2 * (R * 2 ^ k2) ?= w * 2 ^ k2)))
      as B.
    pose proof (rne_up_inexact Q R (2 * (R * 2 ^ k2) ?= w * 2 ^ k2)) as U.
    set (m1 := round_nearest_even _ _) in *.
    assert (Hm1 : (n - 1) * T < m1 <= n * T).
    { split; [lia | ].
      destruct (Z.eq_dec m1 (Q + 1)) as [E | E]; [ | lia].
      specialize (HRhi (U E)). lia. }
    destruct (Z.ltb_spec m1 (2 ^ 24)) as [Hlt | Hge].
    + apply (ceil_finite _ _ K m1); try lia.
      replace (- K + K) with 0 by lia. rewrite Z2Pos.id by lia. lia.
    + apply (ceil_finite _ _ K m1); try lia.
      replace (- K + 1 + K) with 1 by lia.
      assert (m1 = 2 ^ 24) by lia. simpl in *. lia.
  - (* 25 digits: one shift before rounding *)
    rewrite binary_round_aux_25 by lia. cbv zeta.
    assert (HQpos : 0 < Q) by lia.
    pose proof (shr_1_round Q (if R =? 0 then loc_Exact
                               else loc_Inexact (2 * (R * 2 ^ k2) ?= w * 2 ^ k2))
                  HQpos) as B.
    cbv zeta in B. set (m1 := round_nearest_even _ _) in *.
    destruct B as [B [Bup Bodd]].
    set (K1 := K - 1).
    assert (HT1 : T = 2 * 2 ^ K1).
    { subst T K1. replace K with (Z.succ (K - 1)) at 1 by lia.
      rewrite Z.pow_succ_r by lia. reflexivity. }
    set (T1 := 2 ^ K1) in *.
    assert (HnT : n * T = 2 * (n * T1)) by (rewrite HT1; ring).
    assert (Hn1T : (n - 1) * T = 2 * ((n - 1) * T1)) by (rewrite HT1; ring).
    assert (Hm1 : (n - 1) * T1 < m1 <= n * T1).
    { clearbody m1 Q R X T T1 n K K1. split.
      - destruct (Z.lt_ge_cases ((n - 1) * T1) (Q / 2)) as [Hg | Hl]; [lia | ].
        assert (EQ : Q = (n - 1) * T + 1) by (Z.div_mod_to_equations; lia).
        assert (Ho : Z.odd Q = true).
        { rewrite EQ, HT1.
          replace ((n - 1) * (2 * T1) + 1) with (1 + 2 * ((n - 1) * T1)) by lia.
          rewrite Z.odd_add_mul_2. reflexivity. }
        assert (Hl' : (if R =? 0 then loc_Exact
                       else loc_Inexact (2 * (R * 2 ^ k2) ?= w * 2 ^ k2))
                      <> loc_Exact).
        { specialize (HRX EQ). destruct (Z.eqb_spec R 0) as [E | E];
            [contradiction | discriminate]. }
        rewrite (Bodd Ho Hl'). Z.div_mod_to_equations; lia.
      - destruct (Z.eq_dec m1 (Q / 2 + 1)) as [E | E];
          [ | Z.div_mod_to_equations; lia].
        specialize (Bup E).
        assert (Q <> n * T).
        { intros EQ. rewrite EQ, HT1 in Bup.
          replace (n * (2 * T1)) with (0 + 2 * (n * T1)) in Bup by lia.
          rewrite Z.odd_add_mul_2 in Bup. discriminate Bup. }
        Z.div_mod_to_equations; lia. }
    assert (Hm1pos : 0 < m1) by (simpl in H25; Z.div_mod_to_equations; lia).
    destruct (Z.ltb_spec m1 (2 ^ 24)) as [Hlt | Hge].
    + apply (ceil_finite _ _ K1 m1); try (subst K1; lia).
      replace (- K + 1 + K1) with 0 by (subst K1; lia).
      rewrite Z2Pos.id by lia. lia.
    + apply (ceil_finite _ _ K1 m1); try (subst K1; lia).
      replace (- K + 2 + K1) with 1 by (subst K1; lia).
      assert (m1 = 2 ^ 24) by (Z.div_mod_to_equations; lia). simpl in *. lia.
Qed.

(** ** The height of the image *)

Lemma Qceiling_quotient (q w : Z) :
  0 < w -> Qceiling (inject_Z q / inject_Z w)%Q = - (- q / w).
Proof.
  intros Hw. destruct w as [| p | p]; try lia.
  unfold Qceiling, Qfloor, Qdiv, Qinv, Qmult, Qopp, inject_Z. cbn.
  rewrite Z.mul_1_r. reflexivity.
Qed.

Lemma to_ull_product (a b c d e : Z) :
  to_ull (to_ull (to_ull (to_ull (to_ull a * b) * c) * d) * e)
  = to_ull (a * b * c * d * e).
Proof.
  unfold to_ull.
  rewrite Z.mul_mod_idemp_l by lia.
  rewrite <- Z.mul_assoc, Z.mul_mod_idemp_l by lia.
  rewrite <- Z.mul_assoc, Z.mul_mod_idemp_l by lia.
  rewrite <- Z.mul_assoc, Z.mul_mod_idemp_l by lia.
  f_equal. ring.
Qed.

(** C1, as the code has it, for a divisor that is not zero (the divisor
    is the [int] product [zoom * skip * chrs]; the division by a zero
    divisor kills the process).  With auto-height enabled and the
    computed height not above the requested maximum, the rendered height
    is the computed height; when the computed height exceeds the maximum,
    the height stays at the maximum and the truncation notice reports
    the bytes shown and the total.  The computed height is the ceiling of
    the truncated integer quotient [st_size / divisor] divided by the
    width, as long as that quotient and the width are below 2^24 (so
    that the single precision division is exact enough); the divisor is
    the plain product whenever that fits in an [int]. *)
Theorem autoscaled_height
    (st_size width height zoom skip chrs hscale : Z) :
  int_mul (int_mul zoom skip) chrs <> 0 ->
  let fh := fullheight st_size zoom skip chrs width in
  (hscale <> 0 -> fh <= height ->
      scale_height st_size width height zoom skip chrs hscale
      = ([], inl fh))
  /\ (height < fh ->
      scale_height st_size width height zoom skip chrs hscale
      = ([ETruncating (to_ull (width * height * zoom * skip * chrs))
                      (to_ull st_size)], inl height))
  /\ (0 <= Z.quot st_size (int_mul (int_mul zoom skip) chrs) < 2 ^ 24 ->
      0 < width < 2 ^ 24 ->
      fh = truncated_height st_size zoom skip chrs width)
  /\ (INT_MIN <= zoom * skip * chrs <= INT_MAX ->
      int_mul (int_mul zoom skip) chrs = zoom * skip * chrs).
Proof.
  intros _. cbv zeta. split; [ | split; [ | split]].
  - intros Hs Hle. unfold scale_height.
    decide_cmp (height <? fullheight st_size zoom skip chrs width).
    decide_cmp (hscale =? 0). reflexivity.
  - intros Hlt. unfold scale_height.
    decide_cmp (height <? fullheight st_size zoom skip chrs width).
    rewrite to_ull_product. reflexivity.
  - intros Hq Hw. unfold fullheight, truncated_height.
    rewrite float_ceil_div by assumption.
    rewrite Qceiling_quotient by lia.
    set (q := Z.quot st_size (int_mul (int_mul zoom skip) chrs)) in *.
    assert (B : 0 <= - (- q / width) <= q).
    { clearbody q. Z.div_mod_to_equations. nia. }
    unfold double_to_int, INT_MIN, INT_MAX.
    assert (E : ((- 2 ^ 31 <=? - (- q / width))
                 && (- (- q / width) <=? 2 ^ 31 - 1))%bool = true).
    { apply andb_true_iff. split; apply Z.leb_le; lia. }
    rewrite E. reflexivity.
  - intros Hfit. rewrite int_mul2. apply to_int_small, Hfit.
Qed.

Lemma autoscaled_height_witness :
  fullheight 13 1 1 1 4 = truncated_height 13 1 1 1 4
  /\ scale_height 13 4 10240 1 1 1 1 = ([], inl (fullheight 13 1 1 1 4)).
Proof.
  assert (Hd : int_mul (int_mul 1 1) 1 <> 0) by (vm_compute; discriminate).
  assert (Hq : 0 <= Z.quot 13 (int_mul (int_mul 1 1) 1) < 2 ^ 24)
    by (vm_compute; split; [discriminate | reflexivity]).
  assert (Hw : 0 < 4 < 2 ^ 24) by lia.
  pose proof (autoscaled_height 13 4 10240 1 1 1 1 Hd) as H.
  cbv zeta in H. destruct H as [H1 [_ [H3 _]]].
  split; [exact (H3 Hq Hw) | ].
  apply H1; [lia | vm_compute; discriminate].
Defined.

(** C1 as stated fails: for a file of 5 bytes with zoom 2 and width 2
    (skip 1, one byte per pixel, default maximum 10240, auto-height on)
    the exact quotient 5 / 2 / 2 has ceiling 2, and the rendered height
    is 1, the ceiling of (5 / 2 truncated to 2) / 2. *)
Lemma exact_ceiling_counterexample :
  claimed_height 5 2 1 1 2 = 2
  /\ fullheight 5 2 1 1 2 <= 10240
  /\ scale_height 5 2 10240 2 1 1 1 = ([], inl 1)
  /\ 1 <> claimed_height 5 2 1 1 2.
Proof.
  split; [vm_compute; reflexivity | ].
  split; [vm_compute; discriminate | ].
  split; [vm_compute; reflexivity | ].
  vm_compute. discriminate.
Qed.

(** Beyond 2^24 the conversion to [float] rounds: for 2^24 + 1 units and
    width 1 the computed height is 2^24, one row short. *)
Lemma single_precision_rounds :
  fullheight 16777217 1 1 1 1 = 16777216
  /\ truncated_height 16777217 1 1 1 1 = 16777217.
Proof. split; vm_compute; reflexivity. Qed.

(** The [int] products wrap: with zoom 65536 and skip 65537 (width 1,
    one byte per pixel) the divisor of the height and the size of a read
    are both 65536, and a file of 131072 bytes gives 2 rows. *)
Example scenario_wrapped_product :
  fullheight 131072 65536 65537 1 1 = 2
  /\ int_mul (int_mul (int_mul 1 1) 65537) 65536 = 65536.
Proof. split; vm_compute; reflexivity. Qed.

(** With zoom 65536 and skip 65536 the divisor is zero: the process is
    killed by the division, after [stat] and before anything else. *)
Example scenario_zero_divisor :
  main (invoke ["dump2png"; "-z"; "65536"; "-k"; "65536"; "core"]%string
          [("z"%char, "65536"%string); ("k"%char, "65536"%string)] 5)
       (plain_world [x01] 0 black)
  = ([EStat "core"; ESignal SIGFPE], 128 + SIGFPE).
Proof. vm_compute. reflexivity. Qed.

(** [atoi] returns an [int]. *)
Example scenario_atoi_wraps :
  atoi "4294967297" = 1 /\ atoi "4294967296" = 0 /\ atoi " -12x" = -12.
Proof. repeat split; vm_compute; reflexivity. Qed.

(** An error of libpng while the second row is written: [doimage]
    returns 1 after two reads and two rows. *)
Example scenario_write_error :
  doimage {| malloc_ok := fun _ => true; png_create_ok := true;
             png_accepts := fun _ _ => true;
             png_row_ok := fun y => (y <? 1)%nat; png_end_ok := true;
             fresh_inbuf := fun _ => x00;
             fresh_locals := {| v_last := 0; v_rgb := black |} |}
          [x02; x04; x06] 0 1 3 GRAY 1 1 0
  = ([ERead 1 1; ERow [(2, 2, 2)]; ERead 1 1; ERow [(4, 4, 4)];
      EPerror "Error during png creation"], 1).
Proof. vm_compute. reflexivity. Qed.

(** ** The scenarios of the specification, run on the model *)

(** Twelve bytes 0..11, width 4, height 3, gray palette, no mask: pixel
    (x, y) is the gray of 4y + x. *)
Example scenario_twelve_bytes :
  doimage (plain_runtime 0 black)
          (map byte_of_Z [0; 1; 2; 3; 4; 5; 6; 7; 8; 9; 10; 11]) 0
          4 3 GRAY 1 1 0
  = ([ERead 4 4; ERow [(0, 0, 0); (1, 1, 1); (2, 2, 2); (3, 3, 3)];
      ERead 4 4; ERow [(4, 4, 4); (5, 5, 5); (6, 6, 6); (7, 7, 7)];
      ERead 4 4; ERow [(8, 8, 8); (9, 9, 9); (10, 10, 10); (11, 11, 11)];
      EEnd], 0).
Proof. vm_compute. reflexivity. Qed.

(** An empty input, width 10, height 5: every pixel of every row is
    black, for each of the fourteen palettes. *)
Example scenario_empty_input (p : palette_t) :
  doimage (plain_runtime 0 black) [] 0 10 5 p 1 1 1
  = ([ERead (10 * pal2chrs p) 0; ERow (repeat black 10);
      ERead (10 * pal2chrs p) 0; ERow (repeat black 10);
      ERead (10 * pal2chrs p) 0; ERow (repeat black 10);
      ERead (10 * pal2chrs p) 0; ERow (repeat black 10);
      ERead (10 * pal2chrs p) 0; ERow (repeat black 10);
      EEnd], 0).
Proof. destruct p; vm_compute; reflexivity. Qed.

(** * Further properties of the code *)

(** ** Palette names *)

(** X1: [atopal] accepts exactly the fourteen names that [usage] lists,
    each for its own palette; every other string is refused. *)
Theorem atopal_palette_name :
  (forall p, atopal (palette_name p) = Some p)
  /\ (forall s p, atopal s = Some p -> s = palette_name p)
  /\ (forall s, atopal s = None <-> forall p, s <> palette_name p).
Proof.
  assert (A : forall p, atopal (palette_name p) = Some p)
    by (intros p; destruct p; reflexivity).
  assert (B : forall s p, atopal s = Some p -> s = palette_name p).
  { intros s p. unfold atopal.
    repeat match goal with
           | |- context [String.eqb s ?x] =>
               destruct (String.eqb_spec s x) as [-> | _];
               [intros [= <-]; reflexivity | ]
           end.
    discriminate. }
  split; [exact A | split; [exact B | ]].
  intros s. split.
  - intros H p E. rewrite E, A in H. discriminate H.
  - intros H. destruct (atopal s) as [p | ] eqn:E; [ | reflexivity].
    exfalso. apply (H p). apply B. exact E.
Qed.

Lemma atopal_palette_name_witness :
  "fhues"%string = palette_name FHUES.
Proof.
  apply (proj1 (proj2 atopal_palette_name) "fhues"%string FHUES).
  reflexivity.
Defined.

(** ** Bytes per sample *)

(** X2: the switch of [doimage] and [pal2chrs] agree: decoding one sample
    advances [xx] by [pal2chrs pal] (the [xx++] of the loop included),
    and reads no byte outside [xx, xx + pal2chrs pal). *)
Theorem decode_consumes_pal2chrs :
  (forall pal inbuf xx last,
      snd (decode pal inbuf xx last) + 1 = xx + pal2chrs pal)
  /\ (forall pal b1 b2 xx last,
      (forall j, xx <= j < xx + pal2chrs pal -> rd b1 j = rd b2 j) ->
      decode pal b1 xx last = decode pal b2 xx last).
Proof.
  split.
  - intros. rewrite decode_sample. cbn [snd]. lia.
  - intros. apply decode_ext. assumption.
Qed.

Lemma decode_consumes_pal2chrs_witness :
  decode COLOR16 [x01; x02; x03] 0 0 = decode COLOR16 [x01; x02; xff] 0 0.
Proof.
  apply (proj2 decode_consumes_pal2chrs).
  intros j Hj. simpl in Hj.
  assert (C : j = 0 \/ j = 1) by lia. destruct C as [-> | ->]; reflexivity.
Defined.

(** ** Colours of single samples *)

Lemma byte_val_surj (v : Z) : 0 <= v < 256 -> exists b, byte_val b = v.
Proof.
  intros Hv. destruct (Byte.of_N (Z.to_N v)) as [b | ] eqn:E.
  - exists b. unfold byte_val. apply Byte.to_of_N in E. rewrite E. lia.
  - apply Byte.of_N_None_iff in E. lia.
Qed.

Lemma byte_val_inj (b1 b2 : byte) : byte_val b1 = byte_val b2 -> b1 = b2.
Proof.
  unfold byte_val. intros H. apply N2Z.inj in H.
  pose proof (Byte.of_to_N b1) as E1. pose proof (Byte.of_to_N b2) as E2.
  rewrite H in E1. congruence.
Qed.

Lemma rd_cons_0 (b : byte) (rest : list byte) : rd (b :: rest) 0 = byte_val b.
Proof. reflexivity. Qed.

(** A property of all pairs of byte values, checked by evaluation. *)
Lemma byte_pairs_checked (P : Z -> Z -> bool) :
  forallb (fun i => forallb (fun j => P (Z.of_nat i) (Z.of_nat j))
                            (seq 0 256)) (seq 0 256) = true ->
  forall b0 b1 : byte, P (byte_val b0) (byte_val b1) = true.
Proof.
  intros H b0 b1. rewrite forallb_forall in H.
  pose proof (byte_val_range b0) as R0. pose proof (byte_val_range b1) as R1.
  specialize (H (Z.to_nat (byte_val b0))).
  rewrite forallb_forall in H.
  specialize (H ltac:(apply in_seq; lia) (Z.to_nat (byte_val b1))
                ltac:(apply in_seq; lia)).
  rewrite !Z2Nat.id in H by lia. exact H.
Qed.

Lemma mask_even_id (v : Z) :
  0 <= v < 256 /\ Z.even v = true -> to_uchar (Z.land v BYTE_MASK) = v.
Proof.
  intros [Hv He]. destruct (byte_val_surj v Hv) as [b <-].
  destruct b; vm_compute in He |- *; first [reflexivity | discriminate He].
Qed.

Lemma flip_bit5_byte (b : byte) :
  byte_val (byte_of_Z (Z.lxor (byte_val b) 0x20)) = Z.lxor (byte_val b) 0x20.
Proof. destruct b; reflexivity. Qed.

(** X3: the [color] palette keeps the whole byte: the three bit fields
    of the pixel put together again give the byte, and since every
    channel is even the mask changes nothing, so this holds with masking
    enabled as well. *)
Theorem color_palette_keeps_byte (b : byte) (rest : list byte)
    (last mask : Z) :
  let p := apply_mask mask (sample COLOR (b :: rest) 0 last) in
  p = sample COLOR (b :: rest) 0 last
  /\ Z.lor (chan_R p) (Z.lor (Z.shiftr (chan_G p) 3) (Z.shiftr (chan_B p) 6))
     = byte_val b.
Proof.
  unfold apply_mask. destruct (mask =? 0); destruct b; vm_compute;
    split; reflexivity.
Qed.

(** X4: the [color16] palette reads its two bytes as a little-endian
    value, takes red from bits 10-15, green from bits 6-9 and blue from
    bits 0-4; bit 5 of the value has no effect on the colour, and every
    channel is even, so the mask changes nothing. *)
Theorem color16_fields (b0 b1 : byte) (rest : list byte) (last mask : Z) :
  let p := sample COLOR16 (b0 :: b1 :: rest) 0 last in
  p = (Z.land (byte_val b1) 0xfc,
       Z.lor (Z.shiftl (Z.land (byte_val b1) 0x03) 6)
             (Z.shiftr (Z.land (byte_val b0) 0xc0) 2),
       Z.shiftl (Z.land (byte_val b0) 0x1f) 3)
  /\ apply_mask mask p = p
  /\ sample COLOR16 (byte_of_Z (Z.lxor (byte_val b0) 0x20) :: b1 :: rest)
            0 last = p.
Proof.
  cbv zeta.
  assert (C : color16_check (byte_val b0) (byte_val b1) = true).
  { apply (byte_pairs_checked color16_check). vm_compute. reflexivity. }
  unfold color16_check in C. cbv zeta in C.
  rewrite !andb_true_iff, !Z.eqb_eq in C.
  destruct C as [[[[[[Ce Cr] Cg] Cb] Xr] Xg] Xb].
  assert (S : sample COLOR16 (b0 :: b1 :: rest) 0 last
              = map_color16 (byte_val b0 + Z.shiftl (byte_val b1) 8))
    by reflexivity.
  rewrite S.
  set (p := map_color16 (byte_val b0 + Z.shiftl (byte_val b1) 8)) in *.
  assert (Ep : p = (chan_R p, chan_G p, chan_B p))
    by (destruct p as [[r g] bl]; reflexivity).
  split; [rewrite Ep, Cr, Cg, Cb; reflexivity | ].
  split.
  - unfold apply_mask. destruct (mask =? 0); [reflexivity | ].
    pose proof (map_color16_ok (byte_val b0 + Z.shiftl (byte_val b1) 8)) as Ok.
    fold p in Ok. destruct p as [[r g] bl].
    unfold even3, rgb_ok, chan_R, chan_G, chan_B in Ce, Ok. cbn [fst snd] in Ce, Ok.
    rewrite !andb_true_iff in Ce. destruct Ce as [[Er Eg] Eb].
    unfold store3. rewrite !mask_even_id by tauto. reflexivity.
  - assert (S' : sample COLOR16
                   (byte_of_Z (Z.lxor (byte_val b0) 0x20) :: b1 :: rest) 0 last
                 = map_color16 (Z.lxor (byte_val b0) 0x20
                                + Z.shiftl (byte_val b1) 8)).
    { unfold sample, decode. cbn [fst]. unfold rd.
      change (Z.to_nat 0) with 0%nat. change (Z.to_nat (0 + 1)) with 1%nat.
      cbn [nth]. rewrite flip_bit5_byte. reflexivity. }
    rewrite S'.
    set (p' := map_color16 (Z.lxor (byte_val b0) 0x20
                            + Z.shiftl (byte_val b1) 8)) in *.
    assert (Ep' : p' = (chan_R p', chan_G p', chan_B p'))
      by (destruct p' as [[r g] bl]; reflexivity).
    rewrite Ep', Ep, Xr, Xg, Xb. reflexivity.
Qed.

(** X5: the 16- and 32-bit gray palettes show the most significant byte
    of the value that the two or four bytes form in the byte order of
    the palette; the other bytes of the unit have no effect. *)
Theorem gray_wide_most_significant (b0 b1 b2 b3 : byte) (rest : list byte)
    (last : Z) :
  let v0 := byte_val b0 in
  let v1 := byte_val b1 in
  let v2 := byte_val b2 in
  let v3 := byte_val b3 in
  sample GRAY16B (b0 :: b1 :: rest) 0 last = gray ((v0 * 2 ^ 8 + v1) / 2 ^ 8)
  /\ sample GRAY16L (b0 :: b1 :: rest) 0 last
     = gray ((v0 + v1 * 2 ^ 8) / 2 ^ 8)
  /\ sample GRAY32B (b0 :: b1 :: b2 :: b3 :: rest) 0 last
     = gray ((v0 * 2 ^ 24 + v1 * 2 ^ 16 + v2 * 2 ^ 8 + v3) / 2 ^ 24)
  /\ sample GRAY32L (b0 :: b1 :: b2 :: b3 :: rest) 0 last
     = gray ((v0 + v1 * 2 ^ 8 + v2 * 2 ^ 16 + v3 * 2 ^ 24) / 2 ^ 24).
Proof.
  cbv zeta.
  pose proof (byte_val_range b0) as R0. pose proof (byte_val_range b1) as R1.
  pose proof (byte_val_range b2) as R2. pose proof (byte_val_range b3) as R3.
  assert (E16b : (byte_val b0 * 2 ^ 8 + byte_val b1) / 2 ^ 8 = byte_val b0)
    by (Z.div_mod_to_equations; lia).
  assert (E16l : (byte_val b0 + byte_val b1 * 2 ^ 8) / 2 ^ 8 = byte_val b1)
    by (Z.div_mod_to_equations; lia).
  assert (E32b : (byte_val b0 * 2 ^ 24 + byte_val b1 * 2 ^ 16
                  + byte_val b2 * 2 ^ 8 + byte_val b3) / 2 ^ 24 = byte_val b0)
    by (Z.div_mod_to_equations; lia).
  assert (E32l : (byte_val b0 + byte_val b1 * 2 ^ 8 + byte_val b2 * 2 ^ 16
                  + byte_val b3 * 2 ^ 24) / 2 ^ 24 = byte_val b3)
    by (Z.div_mod_to_equations; lia).
  rewrite E16b, E16l, E32b, E32l.
  unfold sample, decode, gray, store3, rd. cbn [fst].
  change (Z.to_nat 0) with 0%nat. change (Z.to_nat (0 + 1)) with 1%nat.
  change (Z.to_nat (0 + 3)) with 3%nat. cbn [nth].
  rewrite !to_uchar_small by assumption.
  repeat split; reflexivity.
Qed.

Lemma map_hues_cases (b : byte) :
  let c := byte_val b in
  map_hues c = (if c <? 86 then (3 * c, 0, 0)
                else if c <? 171 then (0, 3 * c - 256, 0)
                else (0, 0, 3 * c - 512)).
Proof. destruct b; reflexivity. Qed.

(** X6: the [hues] palette has three bands: bytes below 86 give a red
    ramp [3b], bytes from 86 to 170 a green ramp [3b - 256], bytes from
    171 on a blue ramp [3b - 512], the other two channels being zero; no
    two bytes share a colour. *)
Theorem hues_bands (b : byte) :
  let c := byte_val b in
  map_hues c = (if c <? 86 then (3 * c, 0, 0)
                else if c <? 171 then (0, 3 * c - 256, 0)
                else (0, 0, 3 * c - 512))
  /\ forall b', map_hues (byte_val b') = map_hues c -> b' = b.
Proof.
  cbv zeta. split; [apply map_hues_cases | ].
  intros b' H. pose proof (map_hues_cases b) as E.
  pose proof (map_hues_cases b') as E'. cbv zeta in E, E'.
  rewrite E, E' in H. apply byte_val_inj.
  pose proof (byte_val_range b) as R. pose proof (byte_val_range b') as R'.
  destruct (Z.ltb_spec (byte_val b) 86); destruct (Z.ltb_spec (byte_val b') 86);
    destruct (Z.ltb_spec (byte_val b) 171);
    destruct (Z.ltb_spec (byte_val b') 171);
    pose proof (f_equal chan_R H) as HR; pose proof (f_equal chan_G H) as HG;
    pose proof (f_equal chan_B H) as HB;
    unfold chan_R, chan_G, chan_B in HR, HG, HB; cbn [fst snd] in HR, HG, HB;
    lia.
Qed.

Lemma hues_bands_witness :
  map_hues (byte_val x64) = (0, 44, 0) /\ x64 = x64.
Proof.
  split.
  - exact (proj1 (hues_bands x64)).
  - apply (proj2 (hues_bands x64) x64). reflexivity.
Defined.

Lemma land_mask_byte (v : Z) :
  0 <= v < 256 -> to_uchar (Z.land v BYTE_MASK) = v - v mod 2.
Proof.
  intros Hv. destruct (byte_val_surj v Hv) as [b <-].
  destruct b; reflexivity.
Qed.

(** X7: on 8-bit channels the mask subtracts the low bit and nothing
    else, so a masked channel differs from the unmasked one by at most
    one; masking twice is masking once. *)
Theorem mask_clears_low_bit (mask : Z) (p : rgb_t) :
  mask <> 0 -> rgb_ok p ->
  apply_mask mask p
  = (chan_R p - chan_R p mod 2, chan_G p - chan_G p mod 2,
     chan_B p - chan_B p mod 2)
  /\ apply_mask mask (apply_mask mask p) = apply_mask mask p.
Proof.
  intros Hm Hp.
  assert (A : forall q, rgb_ok q ->
                apply_mask mask q
                = (chan_R q - chan_R q mod 2, chan_G q - chan_G q mod 2,
                   chan_B q - chan_B q mod 2)).
  { intros [[r g] b] Hq. unfold apply_mask. decide_cmp (mask =? 0).
    unfold rgb_ok, chan_R, chan_G, chan_B in *. cbn [fst snd] in *.
    unfold store3. rewrite !land_mask_byte by tauto. reflexivity. }
  split; [apply A; exact Hp | ].
  rewrite (A p Hp). rewrite A.
  - destruct p as [[r g] b]. unfold chan_R, chan_G, chan_B. cbn [fst snd].
    f_equal; [f_equal | ]; Z.div_mod_to_equations; lia.
  - destruct p as [[r g] b].
    unfold rgb_ok, chan_R, chan_G, chan_B in *. cbn [fst snd] in *.
    repeat split; Z.div_mod_to_equations; lia.
Qed.

Lemma mask_clears_low_bit_witness :
  apply_mask 1 (255, 8, 3) = (254, 8, 2).
Proof.
  refine (proj1 (mask_clears_low_bit 1 (255, 8, 3) _ _)).
  - lia.
  - unfold rgb_ok, chan_R, chan_G, chan_B; cbn [fst snd]; lia.
Defined.

(** ** Averaging *)

Lemma window_forall (P : rgb_t -> Prop) (n : nat) (pal : palette_t)
    (inbuf : list byte) (xx last : Z) :
  (forall i, 0 <= i < Z.of_nat n ->
             P (sample pal inbuf (xx + i * pal2chrs pal) last)) ->
  Forall P (window n pal inbuf xx last).
Proof.
  revert xx. induction n as [| n IH]; intros xx H; [constructor | ].
  cbn [window]. constructor.
  - replace xx with (xx + 0 * pal2chrs pal) by lia. apply H. lia.
  - apply IH. intros i Hi.
    replace (xx + pal2chrs pal + i * pal2chrs pal)
      with (xx + (i + 1) * pal2chrs pal) by lia.
    apply H. lia.
Qed.

Lemma totals_between (lo hi : rgb_t) (l : list rgb_t) :
  Forall (fun c => rgb_le lo c /\ rgb_le c hi) l ->
  let n := Z.of_nat (List.length l) in
  let '(t0, t1, t2) := totals l in
  n * chan_R lo <= t0 <= n * chan_R hi
  /\ n * chan_G lo <= t1 <= n * chan_G hi
  /\ n * chan_B lo <= t2 <= n * chan_B hi.
Proof.
  induction 1 as [| [[r g] b] l [Hlo Hhi] Hl IH].
  - simpl. lia.
  - cbn [totals List.length]. cbv zeta in IH |- *.
    destruct (totals l) as [[t0 t1] t2].
    unfold rgb_le, chan_R, chan_G, chan_B in *. cbn [fst snd] in *.
    rewrite Nat2Z.inj_succ. lia.
Qed.

(** X8: with a zoom factor N in [1, INT_MAX], every channel of the
    averaged pixel lies between the smallest and the largest value that
    this channel takes among the N samples of the window. *)
Theorem average_between_samples (pal : palette_t) (inbuf : list byte)
    (zoom xx : Z) (st : locals) (lo hi : rgb_t) :
  1 <= zoom <= INT_MAX ->
  (forall i, 0 <= i < zoom ->
             rgb_le lo (sample pal inbuf (xx + i * pal2chrs pal) (v_last st))
             /\ rgb_le (sample pal inbuf (xx + i * pal2chrs pal) (v_last st))
                       hi) ->
  rgb_le lo (fst (unmasked pal inbuf zoom xx st))
  /\ rgb_le (fst (unmasked pal inbuf zoom xx st)) hi.
Proof.
  intros Hz H. unfold INT_MAX in Hz.
  destruct (Z.eq_dec zoom 1) as [-> | Hz1].
  - rewrite unmasked_zoom1. cbn [fst].
    replace xx with (xx + 0 * pal2chrs pal) by lia. apply H. lia.
  - rewrite unmasked_zoomed by (unfold INT_MAX; lia).
    pose proof (totals_between lo hi
                  (window (Z.to_nat zoom) pal inbuf xx (v_last st))) as T.
    rewrite window_length, Z2Nat.id in T by lia. cbv zeta in T.
    assert (W : Forall
                  (fun c => rgb_le lo c /\ rgb_le c hi)
                  (window (Z.to_nat zoom) pal inbuf xx (v_last st))).
    { apply window_forall. intros i Hi. apply H. lia. }
    specialize (T W).
    destruct (totals _) as [[t0 t1] t2]. cbn [fst].
    unfold rgb_le, chan_R, chan_G, chan_B in T |- *. cbn [fst snd].
    destruct T as [[A0 B0] [[A1 B1] [A2 B2]]].
    repeat split;
      first [ apply Z.div_le_lower_bound; lia
            | apply Z.div_le_upper_bound; lia ].
Qed.

Lemma average_between_samples_witness :
  rgb_le (10, 10, 10)
         (fst (unmasked GRAY [x0a; x15] 2 0 {| v_last := 0; v_rgb := black |}))
  /\ rgb_le (fst (unmasked GRAY [x0a; x15] 2 0
                    {| v_last := 0; v_rgb := black |})) (21, 21, 21).
Proof.
  apply average_between_samples.
  - unfold INT_MAX. lia.
  - intros i Hi. assert (C : i = 0 \/ i = 1) by lia.
    destruct C as [-> | ->]; vm_compute; intuition discriminate.
Defined.

(** ** The outcome of [doimage] *)

Lemma rows_of_app (l1 l2 : list event) :
  rows_of (l1 ++ l2) = (rows_of l1 ++ rows_of l2)%list.
Proof.
  induction l1 as [| e l1 IH]; [reflexivity | ].
  destruct e; cbn [app rows_of]; rewrite IH; reflexivity.
Qed.

Lemma rows_loop_S (n : nat) (pal : palette_t) (width skip zoom mask : Z)
    (file : list byte) (pos : nat) (inbuf : list byte) (st : locals) :
  let nbyte := int_mul (int_mul (int_mul width (pal2chrs pal)) skip) zoom in
  let r := read file pos inbuf nbyte in
  let d := dorow pal width zoom mask (snd (fst r)) (fst (fst r)) st in
  rows_loop (S n) pal width skip zoom mask file pos inbuf st
  = ERead nbyte (fst (fst r)) :: ERow (fst d)
      :: rows_loop n pal width skip zoom mask file (snd r) (snd (fst r))
           (snd d).
Proof.
  cbv zeta. cbn [rows_loop].
  destruct (read file pos inbuf _) as [[inn inbuf'] pos']. cbn [fst snd].
  destruct (dorow pal width zoom mask inbuf' inn st). reflexivity.
Qed.



(** ** Rows and the input file *)

Lemma row_loop_S_snd (n : nat) (pal : palette_t) (inbuf : list byte)
    (inn zoom mask x xx : Z) (st : locals) :
  snd (row_loop (S n) pal inbuf inn zoom mask x xx st)
  = snd (row_loop n pal inbuf inn zoom mask (x + 1)
           (snd (fst (pixel pal inbuf inn zoom mask x xx st)))
           (snd (pixel pal inbuf inn zoom mask x xx st))).
Proof.
  cbn [row_loop].
  destruct (pixel pal inbuf inn zoom mask x xx st) as [[p xx'] st'].
  cbn [fst snd]. destruct (row_loop n pal inbuf inn zoom mask (x + 1) xx' st').
  reflexivity.
Qed.

(** A row whose chunk is empty (or whose [read] failed) is black. *)
Lemma row_loop_all_black (n : nat) (pal : palette_t) (inbuf : list byte)
    (inn zoom mask x : Z) (st : locals) :
  inn <= 0 ->
  fst (row_loop n pal inbuf inn zoom mask x 0 st) = repeat black n.
Proof.
  intros Hin. revert x. induction n as [| n IH]; intros x; [reflexivity | ].
  pose proof (pal2chrs_pos pal) as Hc.
  rewrite row_loop_S, pixel_black by lia. cbn [fst snd repeat].
  rewrite IH. reflexivity.
Qed.

Lemma read_outcome (file : list byte) (pos : nat) (inbuf : list byte)
    (nbyte : Z) :
  0 <= nbyte ->
  let r := read file pos inbuf nbyte in
  let k := Nat.min (Z.to_nat nbyte) (List.length file - pos) in
  fst (fst r) = Z.of_nat k
  /\ snd r = (pos + k)%nat
  /\ snd (fst r)
     = (firstn (Z.to_nat nbyte) (skipn pos file) ++ skipn k inbuf)%list.
Proof.
  intros Hn. cbv zeta. unfold read. decide_cmp (nbyte <? 0). cbn [fst snd].
  rewrite length_firstn, length_skipn. repeat split.
Qed.

Lemma rows_of_tail (tail : list event) :
  (exists msg, tail = [EEnd] \/ tail = [EPerror msg]
               \/ tail = [EEnd; EPerror msg]) ->
  rows_of tail = [] /\ filter is_read tail = [].
Proof. intros [msg [-> | [-> | ->]]]; split; reflexivity. Qed.

(** The rows of [doimage] are rows of the loop. *)
Lemma doimage_rows_prefix (rt : runtime) (file : list byte) (pos : nat)
    (width height : Z) (pal : palette_t) (skip zoom mask : Z) :
  exists (n : nat) (inbuf : list byte),
    (n <= Z.to_nat height)%nat
    /\ rows_of (fst (doimage rt file pos width height pal skip zoom mask))
       = rows_of (rows_loop n pal width skip zoom mask file pos inbuf
                    (fresh_locals rt))
    /\ (snd (doimage rt file pos width height pal skip zoom mask) = 0 ->
        n = Z.to_nat height).
Proof.
  destruct (doimage_cases rt file pos width height pal skip zoom mask)
    as [n [inbuf [tail [Hn [E T]]]]].
  exists n, inbuf. split; [exact Hn | ].
  rewrite E, rows_of_app.
  destruct T as [[T0 [En ->]] | [T1 [msg [-> | ->]]]];
    cbn [rows_of]; rewrite app_nil_r;
    (split; [reflexivity | ]); intros H; first [exact En | congruence].
Qed.

Lemma rows_loop_black_from (n : nat) (pal : palette_t)
    (width skip zoom mask : Z) (file : list byte) (pos : nat)
    (inbuf : list byte) (st : locals) (y : nat) (row : list rgb_t) :
  let nbyte := int_mul (int_mul (int_mul width (pal2chrs pal)) skip) zoom in
  0 <= nbyte ->
  Z.of_nat (List.length file) <= Z.of_nat pos + Z.of_nat y * nbyte ->
  nth_error (rows_of (rows_loop n pal width skip zoom mask file pos inbuf st))
            y = Some row ->
  row = repeat black (Z.to_nat width).
Proof.
  cbv zeta.
  set (nbyte := int_mul (int_mul (int_mul width (pal2chrs pal)) skip) zoom).
  intros HB. revert pos inbuf st y.
  induction n as [| n IH]; intros pos inbuf st y Hy Hr.
  - destruct y; discriminate Hr.
  - rewrite rows_loop_S in Hr. cbv zeta in Hr. fold nbyte in Hr.
    cbn [rows_of] in Hr.
    pose proof (read_outcome file pos inbuf _ HB) as R. cbv zeta in R.
    destruct R as [Ri [Rp Rb]].
    destruct y as [| y].
    + cbn [nth_error] in Hr. injection Hr as <-.
      unfold dorow. apply row_loop_all_black. rewrite Ri. lia.
    + cbn [nth_error] in Hr. apply IH in Hr; [exact Hr | ].
      rewrite Rp. rewrite Nat2Z.inj_succ in Hy. nia.
Qed.

(** X10: once the input is used up, the picture is black: every row
    whose chunk starts at or after the end of the file consists of
    [width] black pixels, for every palette, zoom factor, skip factor and
    mask (an empty file gives an entirely black image).  The chunks are
    as long as the [int] product [width * chrs * skip * zoom] says. *)
Theorem rows_past_end_black (rt : runtime) (file : list byte) (pos : nat)
    (width height : Z) (pal : palette_t) (skip zoom mask : Z) (y : nat)
    (row : list rgb_t) :
  let nbyte := int_mul (int_mul (int_mul width (pal2chrs pal)) skip) zoom in
  0 <= nbyte ->
  Z.of_nat (List.length file) <= Z.of_nat pos + Z.of_nat y * nbyte ->
  nth_error (rows_of (fst (doimage rt file pos width height pal skip zoom
                             mask))) y = Some row ->
  row = repeat black (Z.to_nat width).
Proof.
  cbv zeta. intros HB Hy.
  destruct (doimage_rows_prefix rt file pos width height pal skip zoom mask)
    as [n [inbuf [_ [E _]]]].
  rewrite E. apply rows_loop_black_from; assumption.
Qed.

Lemma rows_past_end_black_witness :
  [black; black] = repeat black (Z.to_nat 2).
Proof.
  refine (rows_past_end_black (plain_runtime 0 black) [x07; x08; x09] 0 2 3
            GRAY 1 1 1 2 [black; black] _ _ _).
  - vm_compute. discriminate.
  - vm_compute. discriminate.
  - vm_compute. reflexivity.
Defined.

(** Only [last] of the locals reaches a row when the zoom loop runs. *)
Lemma row_loop_locals (n : nat) (pal : palette_t) (inbuf : list byte)
    (inn zoom mask x xx : Z) (st st' : locals) :
  1 <= zoom -> v_last st = v_last st' ->
  fst (row_loop n pal inbuf inn zoom mask x xx st)
  = fst (row_loop n pal inbuf inn zoom mask x xx st')
  /\ v_last (snd (row_loop n pal inbuf inn zoom mask x xx st))
     = v_last (snd (row_loop n pal inbuf inn zoom mask x xx st')).
Proof.
  intros Hz. revert x xx st st'.
  induction n as [| n IH]; intros x xx st st' E; [split; [reflexivity | exact E] | ].
  rewrite !row_loop_S, !row_loop_S_snd.
  destruct (Z.lt_ge_cases inn (xx + pal2chrs pal)) as [Hb | Hl].
  - rewrite !pixel_black by exact Hb. cbn [fst snd].
    destruct (IH (x + 1) xx st st' E) as [F L]. rewrite F, L. split; reflexivity.
  - rewrite !pixel_live by exact Hl. cbn [fst snd].
    assert (U : unmasked pal inbuf zoom xx st = unmasked pal inbuf zoom xx st').
    { rewrite (unmasked_rgb_irrelevant pal inbuf zoom Hz xx st black).
      rewrite (unmasked_rgb_irrelevant pal inbuf zoom Hz xx st' black).
      rewrite E. reflexivity. }
    rewrite U. split; reflexivity.
Qed.

(** After a row without black pixels [last] is the byte at the index of
    the last pixel. *)
Lemma row_loop_last_live (n : nat) (pal : palette_t) (inbuf : list byte)
    (inn zoom mask x0 xx0 : Z) (st : locals) :
  1 <= zoom ->
  xx0 + Z.of_nat (S n) * (zoom * pal2chrs pal) <= inn ->
  v_last (snd (row_loop (S n) pal inbuf inn zoom mask x0 xx0 st))
  = rd inbuf (x0 + Z.of_nat n).
Proof.
  intros Hz. revert x0 xx0 st.
  pose proof (pal2chrs_pos pal) as Hc.
  induction n as [| n IH]; intros x0 xx0 st Hin.
  - rewrite row_loop_S_snd, pixel_live by nia. cbn. f_equal. lia.
  - rewrite row_loop_S_snd, pixel_live by nia. cbn [fst snd].
    rewrite unmasked_xx, Z.max_r by lia.
    rewrite IH by (rewrite !Nat2Z.inj_succ in *; nia).
    f_equal. lia.
Qed.

(** After a full [read] the head of the buffer is the chunk of the file. *)
Lemma rd_after_read (file : list byte) (pos : nat) (inbuf : list byte)
    (nbyte j : Z) :
  (pos + Z.to_nat nbyte <= List.length file)%nat ->
  0 <= j < nbyte ->
  rd (snd (fst (read file pos inbuf nbyte))) j = rd (skipn pos file) j.
Proof.
  intros Hlen Hj.
  assert (Hn : 0 <= nbyte) by lia.
  pose proof (read_outcome file pos inbuf nbyte Hn) as R. cbv zeta in R.
  destruct R as [_ [_ Rb]]. rewrite Rb. unfold rd. f_equal.
  rewrite app_nth1 by (rewrite length_firstn, length_skipn; lia).
  rewrite nth_firstn.
  assert (E : (Z.to_nat j <? Z.to_nat nbyte)%nat = true)
    by (apply Nat.ltb_lt; lia).
  rewrite E. reflexivity.
Qed.

Lemma rd_skipn (file : list byte) (k : nat) (j : Z) :
  0 <= j -> rd (skipn k file) j = rd file (Z.of_nat k + j).
Proof.
  intros Hj. unfold rd. rewrite nth_skipn. do 2 f_equal. lia.
Qed.

Lemma rows_loop_full_row (n : nat) (pal : palette_t)
    (width skip zoom mask : Z) (file : list byte) (pos : nat)
    (inbuf : list byte) (st : locals) (y : nat) :
  1 <= width -> 1 <= skip -> 1 <= zoom -> (y < n)%nat ->
  let B := width * pal2chrs pal * skip * zoom in
  B <= INT_MAX ->
  (pos + S y * Z.to_nat B <= List.length file)%nat ->
  nth_error (rows_of (rows_loop n pal width skip zoom mask file pos inbuf st))
            y
  = Some (fst (dorow pal width zoom mask
                 (skipn (pos + y * Z.to_nat B) file) B
                 {| v_last :=
                      match y with
                      | O => v_last st
                      | S y' =>
                          rd file (Z.of_nat (pos + y' * Z.to_nat B)
                                   + width - 1)
                      end;
                    v_rgb := black |})).
Proof.
  intros Hw Hk Hz. cbv zeta.
  pose proof (pal2chrs_pos pal) as Hc.
  set (B := width * pal2chrs pal * skip * zoom).
  assert (HB : width * (zoom * pal2chrs pal) <= B) by (subst B; nia).
  assert (HB1 : 1 <= B) by nia.
  intros Hy Hfit. revert Hy.
  assert (EB : int_mul (int_mul (int_mul width (pal2chrs pal)) skip) zoom
               = B).
  { apply int_mul3_small. fold B. unfold INT_MIN. lia. }
  revert pos inbuf st y.
  induction n as [| n IH]; intros pos inbuf st y Hy Hlen; [lia | ].
  rewrite rows_loop_S. cbv zeta. rewrite EB. cbn [rows_of].
  assert (Hfull : (pos + Z.to_nat B <= List.length file)%nat) by nia.
  pose proof (read_outcome file pos inbuf B ltac:(lia)) as R. cbv zeta in R.
  destruct R as [Ri [Rp Rb]].
  replace (Nat.min (Z.to_nat B) (List.length file - pos)) with (Z.to_nat B)
    in Ri, Rp by lia.
  rewrite Z2Nat.id in Ri by lia.
  (* the row of the first chunk *)
  assert (Hext : forall st0,
             row_loop (Z.to_nat width) pal
               (snd (fst (read file pos inbuf B))) B zoom mask 0 0 st0
             = row_loop (Z.to_nat width) pal (skipn pos file) B zoom mask 0 0
                 st0).
  { intros st0. apply row_loop_ext; [exact Hz | lia | lia | ].
    intros j Hj. rewrite Z2Nat.id in Hj by lia.
    apply rd_after_read; [exact Hfull | lia]. }
  destruct y as [| y].
  - cbn [nth_error]. f_equal. rewrite Ri. unfold dorow. rewrite Hext.
    rewrite Nat.mul_0_l, Nat.add_0_r.
    apply (proj1 (row_loop_locals _ _ _ _ _ _ _ _ st
                    {| v_last := v_last st; v_rgb := black |} Hz eq_refl)).
  - cbn [nth_error]. rewrite IH; [ | lia | rewrite Rp; lia ].
    rewrite Rp.
    replace (pos + Z.to_nat B + y * Z.to_nat B)%nat
      with (pos + S y * Z.to_nat B)%nat by lia.
    f_equal. unfold dorow.
    match goal with
    | |- fst (row_loop _ _ _ _ _ _ _ _ ?s1)
         = fst (row_loop _ _ _ _ _ _ _ _ ?s2) =>
        assert (EL : v_last s1 = v_last s2)
    end.
    { cbn [v_last]. destruct y as [| y].
      - rewrite Ri. unfold dorow. rewrite Hext.
        destruct (Z.to_nat width) as [| w] eqn:Ew; [lia | ].
        assert (Ew' : Z.of_nat (S w) = width) by lia.
        rewrite row_loop_last_live by (rewrite ?Ew'; lia).
        rewrite rd_skipn by lia. f_equal. lia.
      - f_equal. lia. }
    exact (proj1 (row_loop_locals _ _ _ _ _ _ _ _ _ _ Hz EL)).
Qed.

(** The pixel at column [x] of a complete row [y]. *)
Lemma doimage_pixel (rt : runtime) (file : list byte) (pos : nat)
    (width height : Z) (pal : palette_t) (skip zoom mask : Z) (x y : nat) :
  snd (doimage rt file pos width height pal skip zoom mask) = 0 ->
  1 <= skip -> 1 <= zoom ->
  width * pal2chrs pal * skip * zoom <= INT_MAX ->
  (y < Z.to_nat height)%nat -> Z.of_nat x < width ->
  let B := Z.to_nat (width * pal2chrs pal * skip * zoom) in
  (pos + S y * B <= List.length file)%nat ->
  let chunk := skipn (pos + y * B) file in
  exists row,
    nth_error
      (rows_of (fst (doimage rt file pos width height pal skip zoom mask))) y
    = Some row
    /\ nth_error row x
       = Some (apply_mask mask
                 (fst (unmasked pal chunk zoom
                         (Z.of_nat x * pal2chrs pal * zoom)
                         {| v_last :=
                              match x, y with
                              | S x', _ => rd chunk (Z.of_nat x')
                              | O, S y' =>
                                  rd file (Z.of_nat (pos + y' * B) + width - 1)
                              | O, O => v_last (fresh_locals rt)
                              end;
                            v_rgb := black |}))).
Proof.
  intros Hok Hk Hz Hfit Hy Hx. cbv zeta. intros Hlen.
  pose proof (pal2chrs_pos pal) as Hc.
  assert (Hw : 1 <= width) by lia.
  destruct (doimage_rows_prefix rt file pos width height pal skip zoom mask)
    as [n [inbuf [_ [Er En]]]].
  rewrite Er, (En Hok).
  pose proof (rows_loop_full_row (Z.to_nat height) pal width skip zoom mask
                file pos inbuf (fresh_locals rt) y Hw Hk Hz Hy) as R.
  cbv zeta in R. specialize (R Hfit Hlen). rewrite R.
  eexists. split; [reflexivity | ].
  unfold dorow.
  rewrite (nth_error_nth' _ black) by (rewrite row_loop_length; lia).
  f_equal.
  assert (A1 : pal2chrs pal <= zoom * pal2chrs pal) by nia.
  assert (A2 : (Z.of_nat x + 1) * (zoom * pal2chrs pal)
               <= width * (zoom * pal2chrs pal)) by nia.
  assert (A3 : width * (zoom * pal2chrs pal)
               <= width * pal2chrs pal * skip * zoom) by nia.
  rewrite (row_loop_live_nth _ _ _ _ _ Hz _ _ _ _ _ _ black);
    [ | lia | lia ].
  cbn [v_last].
  replace (0 + Z.of_nat x * (zoom * pal2chrs pal))
    with (Z.of_nat x * pal2chrs pal * zoom) by lia.
  destruct x as [| x].
  - cbn [Z.of_nat]. change (0 =? 0) with true. cbv iota.
    destruct y; reflexivity.
  - assert (E : (Z.of_nat (S x) =? 0) = false) by (apply Z.eqb_neq; lia).
    rewrite E.
    replace (0 + Z.of_nat (S x) - 1) with (Z.of_nat x) by lia. reflexivity.
Qed.


(** X11: the layout of the image, for a row size
    [width * chrs * skip * zoom] that fits in an [int].  When [doimage]
    succeeds and the file holds the whole chunk of row [y], pixel [x] of
    row [y] is the masked zoom average of the samples decoded from the
    file at offset
    [pos + y * (width * chrs * skip * zoom) + x * chrs * zoom]: rows
    advance by the skip-fold row size, pixels by [chrs * zoom] bytes. *)
Theorem image_layout (rt : runtime) (file : list byte) (pos : nat)
    (width height : Z) (pal : palette_t) (skip zoom mask : Z) (x y : nat) :
  snd (doimage rt file pos width height pal skip zoom mask) = 0 ->
  1 <= skip -> 1 <= zoom ->
  width * pal2chrs pal * skip * zoom <= INT_MAX ->
  (y < Z.to_nat height)%nat -> Z.of_nat x < width ->
  let B := Z.to_nat (width * pal2chrs pal * skip * zoom) in
  (pos + S y * B <= List.length file)%nat ->
  let chunk := skipn (pos + y * B) file in
  exists row,
    nth_error
      (rows_of (fst (doimage rt file pos width height pal skip zoom mask))) y
    = Some row
    /\ nth_error row x
       = Some (apply_mask mask
                 (fst (unmasked pal chunk zoom
                         (Z.of_nat x * pal2chrs pal * zoom)
                         {| v_last :=
                              match x, y with
                              | S x', _ => rd chunk (Z.of_nat x')
                              | O, S y' =>
                                  rd file (Z.of_nat (pos + y' * B) + width - 1)
                              | O, O => v_last (fresh_locals rt)
                              end;
                            v_rgb := black |}))).
Proof. apply doimage_pixel. Qed.

Lemma image_layout_witness :
  exists row,
    nth_error
      (rows_of (fst (doimage (plain_runtime 0 black)
                       [x01; x02; x03; x04; x05; x06; x07; x08] 0 2 2 GRAY 2 1
                       0))) 1
    = Some row
    /\ nth_error row 1
       = Some (apply_mask 0
                 (fst (unmasked GRAY (skipn (0 + 1 * Z.to_nat (2 * 1 * 2 * 1))
                                        [x01; x02; x03; x04; x05; x06; x07; x08])
                         1 (Z.of_nat 1 * 1 * 1)
                         {| v_last := rd (skipn (0 + 1 * Z.to_nat (2 * 1 * 2 * 1))
                                            [x01; x02; x03; x04; x05; x06; x07;
                                             x08]) (Z.of_nat 0);
                            v_rgb := black |}))).
Proof.
  refine (image_layout (plain_runtime 0 black)
            [x01; x02; x03; x04; x05; x06; x07; x08] 0 2 2 GRAY 2 1 0 1 1
            _ _ _ _ _ _ _).
  - reflexivity.
  - lia.
  - lia.
  - vm_compute. discriminate.
  - simpl. lia.
  - simpl. lia.
  - simpl. lia.
Defined.

Lemma gray_pixel (buf : list byte) (mask x : Z) (st : locals) :
  apply_mask mask (fst (unmasked GRAY buf 1 x st))
  = apply_mask mask (gray (rd buf x)).
Proof.
  rewrite unmasked_zoom1. cbn [fst]. unfold sample, decode, store3, gray.
  cbn [fst]. rewrite !to_uchar_small by apply rd_range. reflexivity.
Qed.

(** X12: with the gray palette and zoom 1, for a row size
    [width * skip] that fits in an [int], a complete row is the row of
    file bytes itself: pixel [x] of row [y] is the (masked) gray of the
    byte at offset [pos + y * width * skip + x].  Without the mask the
    red channel of the row gives these bytes back, so the input can be
    read off the image. *)
Theorem gray_rows_are_file_bytes (rt : runtime) (file : list byte)
    (pos : nat) (width height skip mask : Z) (y : nat) :
  snd (doimage rt file pos width height GRAY skip 1 mask) = 0 ->
  1 <= width -> 1 <= skip -> width * skip <= INT_MAX ->
  (y < Z.to_nat height)%nat ->
  let B := Z.to_nat (width * skip) in
  (pos + S y * B <= List.length file)%nat ->
  let bytes := firstn (Z.to_nat width) (skipn (pos + y * B) file) in
  exists row,
    nth_error
      (rows_of (fst (doimage rt file pos width height GRAY skip 1 mask))) y
    = Some row
    /\ row = map (fun b => apply_mask mask (gray (byte_val b))) bytes
    /\ (mask = 0 -> map chan_R row = map byte_val bytes).
Proof.
  intros Hok Hw Hk Hfit Hy. cbv zeta. intros Hlen.
  assert (EB : width * pal2chrs GRAY * skip * 1 = width * skip)
    by (cbn [pal2chrs]; lia).
  destruct (doimage_rows_prefix rt file pos width height GRAY skip 1 mask)
    as [n [inbuf [_ [Er En]]]].
  rewrite Er, (En Hok).
  pose proof (rows_loop_full_row (Z.to_nat height) GRAY width skip 1 mask
                file pos inbuf (fresh_locals rt) y Hw Hk ltac:(lia) Hy) as R.
  cbv zeta in R. rewrite EB in R. specialize (R Hfit Hlen). rewrite R.
  eexists. split; [reflexivity | ].
  set (chunk := skipn (pos + y * Z.to_nat (width * skip)) file).
  assert (Hchunk : (Z.to_nat width <= List.length chunk)%nat).
  { subst chunk. rewrite length_skipn. nia. }
  set (st0 := {| v_last := _; v_rgb := black |}).
  assert (Erow : fst (dorow GRAY width 1 mask chunk (width * skip) st0)
                 = map (fun b => apply_mask mask (gray (byte_val b)))
                       (firstn (Z.to_nat width) chunk)).
  { set (f := fun b => apply_mask mask (gray (byte_val b))).
    apply (nth_ext _ _ black (f x00)).
    - unfold dorow. rewrite row_loop_length, length_map, length_firstn. lia.
    - intros i Hi. unfold dorow in Hi |- *. rewrite row_loop_length in Hi.
      rewrite (row_loop_live_nth GRAY chunk (width * skip) 1 mask
                 ltac:(lia) _ _ _ _ _ _ black);
        [ | lia | cbn [pal2chrs]; nia ].
      rewrite gray_pixel, map_nth, nth_firstn.
      assert (E : (i <? Z.to_nat width)%nat = true) by (apply Nat.ltb_lt; lia).
      rewrite E. subst f. cbv beta. unfold rd. do 4 f_equal.
      cbn [pal2chrs]. lia. }
  split; [exact Erow | ].
  intros ->. rewrite Erow, map_map. apply map_ext. intros b. reflexivity.
Qed.

Lemma gray_rows_are_file_bytes_witness :
  exists row,
    nth_error
      (rows_of (fst (doimage (plain_runtime 0 black)
                       [x01; x02; x03; x04; x05; x06; x07; x08] 0 2 2 GRAY 2 1
                       0))) 1
    = Some row
    /\ row = map (fun b => apply_mask 0 (gray (byte_val b)))
                 (firstn (Z.to_nat 2)
                    (skipn (0 + 1 * Z.to_nat (2 * 2))
                       [x01; x02; x03; x04; x05; x06; x07; x08]))
    /\ (0 = 0 ->
        map chan_R row
        = map byte_val
            (firstn (Z.to_nat 2)
               (skipn (0 + 1 * Z.to_nat (2 * 2))
                  [x01; x02; x03; x04; x05; x06; x07; x08]))).
Proof.
  refine (gray_rows_are_file_bytes (plain_runtime 0 black)
            [x01; x02; x03; x04; x05; x06; x07; x08] 0 2 2 2 0 1
            _ _ _ _ _ _).
  - reflexivity.
  - lia.
  - lia.
  - vm_compute. discriminate.
  - simpl. lia.
  - simpl. lia.
Defined.

(** X13: at zoom 1 and skip 1 (and a width that is an [int]) the
    history byte of the dvi palette is the byte that precedes the current
    one in the file, for every pixel of a complete row except the very
    first pixel of the image: the pixel at file offset [off] is the
    (masked) colour (|b - b'|, b, (b + b') / 2) of the bytes b at [off]
    and b' at [off - 1]. *)
Theorem dvi_history_at_zoom1 (rt : runtime) (file : list byte) (pos : nat)
    (width height mask : Z) (x y : nat) :
  snd (doimage rt file pos width height DVI 1 1 mask) = 0 ->
  width <= INT_MAX ->
  (y < Z.to_nat height)%nat -> Z.of_nat x < width ->
  (pos + S y * Z.to_nat width <= List.length file)%nat ->
  (0 < x + y)%nat ->
  let off := Z.of_nat (pos + y * Z.to_nat width + x) in
  exists row,
    nth_error
      (rows_of (fst (doimage rt file pos width height DVI 1 1 mask))) y
    = Some row
    /\ nth_error row x
       = Some (apply_mask mask
                 (dvi_claimed (rd file off) (rd file (off - 1)))).
Proof.
  intros Hok Hfit Hy Hx Hlen Hxy. cbv zeta.
  assert (EB : Z.to_nat (width * pal2chrs DVI * 1 * 1) = Z.to_nat width)
    by (cbn [pal2chrs]; f_equal; lia).
  destruct (doimage_pixel rt file pos width height DVI 1 1 mask x y Hok
              ltac:(lia) ltac:(lia) ltac:(cbn [pal2chrs]; lia) Hy Hx)
    as [row [Hrow Hpix]].
  { rewrite EB. exact Hlen. }
  rewrite EB in Hpix. exists row. split; [exact Hrow | ].
  rewrite Hpix. do 2 f_equal.
  rewrite unmasked_zoom1. cbn [fst v_last].
  unfold sample, decode. cbn [fst pal2chrs].
  replace (Z.of_nat x * 1 * 1) with (Z.of_nat x) by lia.
  rewrite rd_skipn by lia.
  set (l := match x with O => _ | S _ => _ end).
  assert (El : l = rd file (Z.of_nat (pos + y * Z.to_nat width + x) - 1)).
  { subst l. destruct x as [| x].
    - destruct y as [| y]; [lia | ]. f_equal. lia.
    - rewrite rd_skipn by lia. f_equal. lia. }
  rewrite El.
  replace (Z.of_nat (pos + y * Z.to_nat width) + Z.of_nat x)
    with (Z.of_nat (pos + y * Z.to_nat width + x)) by lia.
  pose proof (rd_range file (Z.of_nat (pos + y * Z.to_nat width + x))) as Rc.
  pose proof (rd_range file (Z.of_nat (pos + y * Z.to_nat width + x) - 1))
    as Rl.
  unfold dvi_claimed, store3.
  rewrite Z.quot_div_nonneg by lia.
  rewrite !to_uchar_small; [reflexivity | | lia | lia].
  Z.div_mod_to_equations. lia.
Qed.

Lemma dvi_history_at_zoom1_witness :
  exists row,
    nth_error
      (rows_of (fst (doimage (plain_runtime 0 black)
                       [x01; x05; x02; x09] 0 2 2 DVI 1 1 0))) 1
    = Some row
    /\ nth_error row 0
       = Some (apply_mask 0
                 (dvi_claimed
                    (rd [x01; x05; x02; x09]
                        (Z.of_nat (0 + 1 * Z.to_nat 2 + 0)))
                    (rd [x01; x05; x02; x09]
                        (Z.of_nat (0 + 1 * Z.to_nat 2 + 0) - 1)))).
Proof.
  refine (dvi_history_at_zoom1 (plain_runtime 0 black) [x01; x05; x02; x09]
            0 2 2 0 0 1 _ _ _ _ _ _).
  - reflexivity.
  - vm_compute. discriminate.
  - simpl. lia.
  - simpl. lia.
  - simpl. lia.
  - lia.
Defined.

(** ** The height and the exit status *)

(** X14: the height handed to [doimage] never exceeds the requested
    maximum, for any file size and any factors; with [-H] it is the
    requested height itself; the truncation notice is printed exactly
    when the computed height exceeds the maximum, and nothing else is
    printed by this step. *)
Theorem height_never_above_maximum
    (st_size width height zoom skip chrs hscale : Z) :
  exists t h,
    scale_height st_size width height zoom skip chrs hscale = (t, inl h)
    /\ h <= height
    /\ (hscale = 0 -> h = height)
    /\ (height < fullheight st_size zoom skip chrs width ->
        exists shown, t = [ETruncating shown (to_ull st_size)])
    /\ (fullheight st_size zoom skip chrs width <= height -> t = []).
Proof.
  unfold scale_height.
  destruct (Z.ltb_spec height (fullheight st_size zoom skip chrs width))
    as [Hlt | Hge].
  - eexists. exists height. split; [reflexivity | ].
    split; [lia | ]. split; [reflexivity | ].
    split; [intros _; eexists; reflexivity | lia].
  - exists []. eexists. split; [reflexivity | ].
    destruct (Z.eqb_spec hscale 0) as [E | E].
    + split; [lia | ]. split; [reflexivity | ]. split; [lia | reflexivity].
    + split; [lia | ]. split; [contradiction | ]. split; [lia | reflexivity].
Qed.




Lemma killed_outcome {A : Type} (sig : Z) :
  @killed A sig = ([ESignal sig], inr (128 + sig)).
Proof. reflexivity. Qed.









(** Once the check of line 451 fails it fails for the rest of the row:
    the buffer is not looked at any more. *)
Lemma row_loop_black_ext (n : nat) (pal : palette_t) (b1 b2 : list byte)
    (inn zoom mask x xx : Z) (st : locals) :
  inn < xx + pal2chrs pal ->
  row_loop n pal b1 inn zoom mask x xx st
  = row_loop n pal b2 inn zoom mask x xx st.
Proof.
  intros Hb. revert x. induction n as [| n IH]; intros x; [reflexivity | ].
  cbn [row_loop]. rewrite !pixel_black by exact Hb. rewrite IH. reflexivity.
Qed.

(** Without zoom a row looks at the bytes below [inn] only. *)
Lemma row_loop_read_part (n : nat) (pal : palette_t) (b1 b2 : list byte)
    (inn mask x xx : Z) (st : locals) :
  (forall j, 0 <= j < inn -> rd b1 j = rd b2 j) ->
  0 <= x <= xx ->
  row_loop n pal b1 inn 1 mask x xx st
  = row_loop n pal b2 inn 1 mask x xx st.
Proof.
  intros H. revert x xx st.
  induction n as [| n IH]; intros x xx st Hx; [reflexivity | ].
  pose proof (pal2chrs_pos pal) as Hc.
  destruct (Z.lt_ge_cases inn (xx + pal2chrs pal)) as [Hb | Hl].
  { apply row_loop_black_ext. exact Hb. }
  cbn [row_loop].
  rewrite (pixel_ext pal b1 b2 inn 1 mask x xx st);
    [ | intros j Hj; apply H; lia | apply H; lia ].
  rewrite (pixel_live pal b2 inn 1 mask x xx st) by exact Hl.
  rewrite unmasked_xx. rewrite IH by lia. reflexivity.
Qed.

Lemma rd_app_chunk (chunk rest : list byte) (j : Z) :
  0 <= j < Z.of_nat (List.length chunk) ->
  rd (chunk ++ rest) j = rd chunk j.
Proof.
  intros Hj. unfold rd. rewrite app_nth1 by lia. reflexivity.
Qed.

(** Without zoom the rows do not depend on what the buffer held before
    the first [read]. *)
Lemma rows_loop_read_part (n : nat) (pal : palette_t)
    (width skip mask : Z) (file : list byte) (pos : nat)
    (b1 b2 : list byte) (st : locals) :
  rows_loop n pal width skip 1 mask file pos b1 st
  = rows_loop n pal width skip 1 mask file pos b2 st.
Proof.
  revert pos b1 b2 st.
  induction n as [| n IH]; intros pos b1 b2 st; [reflexivity | ].
  cbn [rows_loop]. unfold read.
  set (nbyte := int_mul (int_mul (int_mul width (pal2chrs pal)) skip) 1).
  destruct (nbyte <? 0).
  - unfold dorow.
    rewrite (row_loop_read_part _ pal b1 b2 (-1) mask 0 0 st) by lia.
    destruct (row_loop _ pal b2 (-1) 1 mask 0 0 st) as [row st'].
    rewrite (IH pos b1 b2 st'). reflexivity.
  - set (chunk := firstn (Z.to_nat nbyte) (skipn pos file)).
    unfold dorow.
    rewrite (row_loop_read_part _ pal
               (chunk ++ skipn (List.length chunk) b1)
               (chunk ++ skipn (List.length chunk) b2)
               (Z.of_nat (List.length chunk)) mask 0 0 st);
      [ | intros j Hj; rewrite !rd_app_chunk by exact Hj; reflexivity | lia ].
    destruct (row_loop _ pal _ _ 1 mask 0 0 st) as [row st'].
    rewrite (IH _ (chunk ++ skipn (List.length chunk) b1)%list
               (chunk ++ skipn (List.length chunk) b2)%list st').
    reflexivity.
Qed.

(** X17: without zoom, nothing that [doimage] returns or emits depends on
    the content of the buffer that [malloc] returned: only bytes that a
    [read] delivered reach the image.  With zoom this fails: the check of
    line 451 looks at the first sample of a pixel only, and the average
    of a pixel at the end of the file takes in bytes that were not
    read. *)
Theorem unread_bytes_stay_out (rt : runtime) (f : nat -> byte)
    (file : list byte) (pos : nat) (width height : Z) (pal : palette_t)
    (skip mask : Z) :
  doimage {| malloc_ok := malloc_ok rt; png_create_ok := png_create_ok rt;
             png_accepts := png_accepts rt; png_row_ok := png_row_ok rt;
             png_end_ok := png_end_ok rt; fresh_inbuf := f;
             fresh_locals := fresh_locals rt |}
          file pos width height pal skip 1 mask
  = doimage rt file pos width height pal skip 1 mask
  /\ rows_of (fst (doimage
                     {| malloc_ok := fun _ => true; png_create_ok := true;
                        png_accepts := fun _ _ => true;
                        png_row_ok := fun _ => true; png_end_ok := true;
                        fresh_inbuf := fun _ => xff;
                        fresh_locals := {| v_last := 0; v_rgb := black |} |}
                     [x01] 0 1 1 GRAY 1 2 0))
     = [[(128, 128, 128)]].
Proof.
  split; [ | vm_compute; reflexivity ].
  unfold doimage.
  cbn [malloc_ok png_create_ok png_accepts png_row_ok png_end_ok fresh_inbuf
       fresh_locals].
  destruct (negb _); [reflexivity | ].
  destruct (negb _); [reflexivity | ].
  destruct (find _ _);
    [f_equal; f_equal; apply rows_loop_read_part | ].
  destruct (png_end_ok rt); f_equal; f_equal; apply rows_loop_read_part.
Qed.

Lemma field_of_word (u M n : Z) :
  0 <= n -> Z.shiftr M n = 255 ->
  Z.shiftr (Z.land u M) n = (u / 2 ^ n) mod 256.
Proof.
  intros Hn HM. rewrite Z.shiftr_land, HM.
  change 255 with (Z.ones 8). rewrite Z.land_ones by lia.
  rewrite Z.shiftr_div_pow2 by exact Hn. reflexivity.
Qed.

(** X18: the 32-bit colour palette.  Red is the fourth byte of the unit;
    green is bits 13 to 20 of the little-endian word, blue bits 1 to 8.
    The sign of the [int] in which the word is assembled, and its
    extension to [unsigned long], do not show. *)
Theorem color32_fields (inbuf : list byte) (xx last : Z) :
  decode COLOR32 inbuf xx last
  = ((rd inbuf (xx + 3),
      (rd inbuf (xx + 1) / 32 + 8 * rd inbuf (xx + 2)) mod 256,
      (rd inbuf xx / 2 + 128 * rd inbuf (xx + 1)) mod 256),
     xx + 3).
Proof.
  pose proof (rd_range inbuf xx) as H0.
  pose proof (rd_range inbuf (xx + 1)) as H1.
  pose proof (rd_range inbuf (xx + 2)) as H2.
  pose proof (rd_range inbuf (xx + 3)) as H3.
  unfold decode, map_color32, store3.
  rewrite !Z.shiftl_mul_pow2 by lia.
  generalize dependent (rd inbuf xx). intros b0 H0.
  generalize dependent (rd inbuf (xx + 1)). intros b1 H1.
  generalize dependent (rd inbuf (xx + 2)). intros b2 H2.
  generalize dependent (rd inbuf (xx + 3)). intros b3 H3.
  rewrite (field_of_word _ 0xff000000 24) by (vm_compute; congruence).
  rewrite (field_of_word _ 0x001fe000 13) by (vm_compute; congruence).
  rewrite (field_of_word _ 0x000001fe 1) by (vm_compute; congruence).
  unfold to_uchar, to_ulong, to_int.
  change (2 ^ 8) with 256. change (2 ^ 16) with 65536.
  change (2 ^ 24) with 16777216. change (2 ^ 31) with 2147483648.
  change (2 ^ 32) with 4294967296. change (2 ^ 64) with 18446744073709551616.
  change (2 ^ 13) with 8192. change (2 ^ 1) with 2.
  f_equal. f_equal; [f_equal | ]; Z.div_mod_to_equations; lia.
Qed.

(** ** Seeking *)






